(** * check_duplicate.py: normaliser, subdomain pruner and duplicate accounting

    A shallow embedding of the class [DuplicateChecker] of
    [check_duplicate.py] and the proofs of its specification.

    Layout of the development:
    - [PyStr]: the Python [str] built-ins the program calls;
    - [Re]: the regular expressions of [re.fullmatch], with a
      derivative-based matcher and its language;
    - [DuplicateChecker]: the methods of the class;
    - [Grammar]: the label grammar in the words of the specification;
    - the lemmas and theorems. *)

From Stdlib Require Import Ascii String QArith.
From stdpp Require Import gmap strings list.

Open Scope char_scope.

(** ** Python strings

    A Python [str] is a sequence of code points.  The embedding covers the
    code points U+0000..U+00FF, one [ascii] each; on that range [lower],
    [strip] and [splitlines] below are the ones of CPython (the range is
    closed under [str.lower]). *)

Module PyStr.

Abbreviation str := (list ascii).

(** A literal of the source. *)
Definition lit (s : string) : str := list_ascii_of_string s.

Definition code (c : ascii) : N := N_of_ascii c.

Definition between (lo hi : N) (c : ascii) : bool :=
  ((lo <=? code c) && (code c <=? hi))%N.

(** [str.isspace] on one code point, which is what [str.strip()] removes:
    U+0009..U+000D, U+001C..U+001F, U+0020, U+0085 and U+00A0. *)
Definition is_space (c : ascii) : bool :=
  between 9 13 c || between 28 32 c
  || (code c =? 133)%N || (code c =? 160)%N.

(** [str.lower] on one code point: A..Z and the upper-case letters of
    Latin-1 (U+00C0..U+00DE without the multiplication sign U+00D7) move
    up by 32, every other code point stays. *)
Definition lower_char (c : ascii) : ascii :=
  if between 65 90 c || between 192 214 c || between 216 222 c
  then ascii_of_N (code c + 32)
  else c.

Definition lower (s : str) : str := map lower_char s.

Fixpoint lstrip (s : str) : str :=
  match s with
  | c :: s' => if is_space c then lstrip s' else s
  | [] => []
  end.

Definition rstrip (s : str) : str := rev (lstrip (rev s)).

Definition strip (s : str) : str := rstrip (lstrip s).

Fixpoint startswith (s p : str) {struct p} : bool :=
  match p, s with
  | [], _ => true
  | a :: p', b :: s' => bool_decide (a = b) && startswith s' p'
  | _ :: _, [] => false
  end.

Definition endswith (s p : str) : bool := startswith (rev s) (rev p).

(** [c in s] for a one-character [c]. *)
Definition contains (c : ascii) (s : str) : bool :=
  existsb (fun x => bool_decide (x = c)) s.

(** The slice [s[2:-1]]: from index 2 up to, not including, the last
    index; empty when [s] has fewer than three characters. *)
Definition slice_2_m1 (s : str) : str := removelast (drop 2 s).

(** [s.split(sep)] for a one-character separator: the pieces between
    the separators, never an empty list. *)
Fixpoint split (sep : ascii) (s : str) : list str :=
  match s with
  | [] => [[]]
  | c :: s' =>
      if bool_decide (c = sep) then [] :: split sep s'
      else match split sep s' with
           | w :: ws => (c :: w) :: ws
           | [] => [[c]]
           end
  end.

(** [sep.join(parts)]. *)
Fixpoint join (sep : str) (parts : list str) : str :=
  match parts with
  | [] => []
  | [p] => p
  | p :: rest => p ++ sep ++ join sep rest
  end.

(** The line boundaries of [str.splitlines]: LF, VT, FF, CR, FS, GS, RS
    and NEL. *)
Definition is_linebreak (c : ascii) : bool :=
  between 10 13 c || between 28 30 c || (code c =? 133)%N.

(** [s.splitlines()]: the lines without their terminators; CR LF is one
    terminator; no empty last line after a final terminator.  [cur] is
    the line being read, reversed. *)
Fixpoint splitlines_go (cur : str) (started : bool) (s : str) : list str :=
  match s with
  | [] => if started then [rev cur] else []
  | c :: s' =>
      if is_linebreak c then
        rev cur ::
          match s' with
          | d :: s'' =>
              if bool_decide (c = "013") && bool_decide (d = "010")
              then splitlines_go [] false s''
              else splitlines_go [] false s'
          | [] => []
          end
      else splitlines_go (c :: cur) true s'
  end.

Definition splitlines (s : str) : list str := splitlines_go [] false s.

End PyStr.

Import PyStr.

(** ** Regular expressions

    The fragment of Python's [re] syntax that the program's pattern uses:
    character classes, literals, concatenation, [?], [*] and [{2,}].
    [fullmatch] decides by Brzozowski derivatives whether the whole string
    is in the language of the pattern, which is what [re.fullmatch] answers
    for this fragment (it has no back-references, look-arounds or
    possessive operators, so backtracking finds a match whenever one
    exists). *)

Module Re.

(** An item of a character class: one character or a range [lo-hi]. *)
Inductive item : Type :=
| One (c : ascii)
| Range (lo hi : ascii).

Definition item_has (c : ascii) (i : item) : bool :=
  match i with
  | One x => bool_decide (c = x)
  | Range lo hi => between (code lo) (code hi) c
  end.

Definition in_class (k : list item) (c : ascii) : bool :=
  existsb (item_has c) k.

Inductive regex : Type :=
| Void
| Eps
| Class (k : list item)
| Cat (r1 r2 : regex)
| Alt (r1 r2 : regex)
| Star (r : regex).

(** [\c], an escaped literal character. *)
Definition Lit (c : ascii) : regex := Class [One c].

(** [r?] *)
Definition Opt (r : regex) : regex := Alt r Eps.

(** [r{n,}] *)
Fixpoint AtLeast (n : nat) (r : regex) : regex :=
  match n with
  | O => Star r
  | S n' => Cat r (AtLeast n' r)
  end.

Fixpoint nullable (r : regex) : bool :=
  match r with
  | Void => false
  | Eps => true
  | Class _ => false
  | Cat r1 r2 => nullable r1 && nullable r2
  | Alt r1 r2 => nullable r1 || nullable r2
  | Star _ => true
  end.

Fixpoint deriv (c : ascii) (r : regex) : regex :=
  match r with
  | Void => Void
  | Eps => Void
  | Class k => if in_class k c then Eps else Void
  | Cat r1 r2 =>
      if nullable r1 then Alt (Cat (deriv c r1) r2) (deriv c r2)
      else Cat (deriv c r1) r2
  | Alt r1 r2 => Alt (deriv c r1) (deriv c r2)
  | Star r1 => Cat (deriv c r1) (Star r1)
  end.

Fixpoint fullmatch (r : regex) (s : str) : bool :=
  match s with
  | [] => nullable r
  | c :: s' => fullmatch (deriv c r) s'
  end.

(** The language of a pattern. *)
Inductive lang : regex -> str -> Prop :=
| lang_eps : lang Eps []
| lang_class k c : in_class k c = true -> lang (Class k) [c]
| lang_cat r1 r2 s1 s2 : lang r1 s1 -> lang r2 s2 -> lang (Cat r1 r2) (s1 ++ s2)
| lang_alt_l r1 r2 s : lang r1 s -> lang (Alt r1 r2) s
| lang_alt_r r1 r2 s : lang r2 s -> lang (Alt r1 r2) s
| lang_star_nil r : lang (Star r) []
| lang_star_app r s1 s2 :
    lang r s1 -> lang (Star r) s2 -> lang (Star r) (s1 ++ s2).

(** The characters that occur in the strings of a pattern's language are
    among those of its classes. *)
Fixpoint consumes (r : regex) (c : ascii) : bool :=
  match r with
  | Void | Eps => false
  | Class k => in_class k c
  | Cat r1 r2 | Alt r1 r2 => consumes r1 c || consumes r2 c
  | Star r1 => consumes r1 c
  end.

End Re.

(** ** The class [DuplicateChecker] *)

Module DuplicateChecker.
Import Re.

(** The classes and the pattern of [normalize]:
    [^[a-z0-9]([a-z0-9-]*[a-z0-9])?(\.[a-z0-9]([a-z0-9-]*[a-z0-9])?)*\.[a-z]{2,}$].
    Under [re.fullmatch] the anchors [^] and [$] hold exactly at the two
    ends of the string, where the match starts and ends anyway, so they
    contribute nothing to the pattern. *)
Definition az09 : list item := [Range "a" "z"; Range "0" "9"].
Definition az09h : list item := [Range "a" "z"; Range "0" "9"; One "-"].
Definition az : list item := [Range "a" "z"].

Definition label_re : regex :=
  Cat (Class az09) (Opt (Cat (Star (Class az09h)) (Class az09))).

Definition domain_re : regex :=
  Cat label_re
    (Cat (Star (Cat (Lit ".") label_re))
       (Cat (Lit ".") (AtLeast 2 (Class az)))).

(** [normalize]: the empty string stands for a rejected line. *)
Definition normalize (line : str) : str :=
  let line := lower (strip line) in
  if negb (startswith line (lit "||") && endswith line (lit "^")
           && negb (contains "$" line))
  then []
  else
    let domain := slice_2_m1 line in
    if negb (fullmatch domain_re domain) then []
    else line.

(** [prune_subdomain], the test of the loop: some [parts[i:]] with
    [1 <= i < len(parts)], joined by dots, is in [domains]. *)
Definition has_parent (domains : gset str) (rule : str) : bool :=
  let domain := slice_2_m1 rule in
  let parts := split "." domain in
  existsb (fun i => bool_decide (join (lit ".") (drop i parts) ∈ domains))
    (seq 1 (length parts - 1)).

Definition prune_subdomain (rules : gset str) : gset str :=
  if bool_decide (rules = ∅) then rules
  else
    let domains : gset str := set_map slice_2_m1 rules in
    foldl (fun kept rule =>
             if has_parent domains rule then kept else kept ∪ {[rule]})
      ∅ (elements rules).

Definition extract_rules (content : str) : gset str :=
  list_to_set
    (map normalize
       (filter (fun line => normalize line ≠ []) (splitlines content))).

(** A Python [dict] whose iteration order matters: the items in insertion
    order.  [dict_set] is [d[k] = v]: an existing key keeps its place. *)
Fixpoint dict_set {V : Type} (k : str) (v : V) (d : list (str * V))
  : list (str * V) :=
  match d with
  | [] => [(k, v)]
  | (k', v') :: d' =>
      if bool_decide (k' = k) then (k, v) :: d'
      else (k', v') :: dict_set k v d'
  end.

(** The attributes of a [DuplicateChecker] apart from the lock. *)
Record checker : Type := Checker {
  source_pruned : list (str * gset str);
  rule_sources : gmap str (list str)
}.

(** [__init__] *)
Definition init : checker :=
  {| source_pruned := []; rule_sources := ∅ |}.

(** [process_source] from the extracted rules on: prune, then
    [self.source_pruned[url] = pruned]. *)
Definition store_pruned (url : str) (raw : gset str) (st : checker)
  : checker :=
  let pruned := prune_subdomain raw in
  {| source_pruned := dict_set url pruned (source_pruned st);
     rule_sources := rule_sources st |}.

(** [process_source], with the text that [download] returned for [url]. *)
Definition process_source (url content : str) (st : checker) : checker :=
  let raw := extract_rules content in
  store_pruned url raw st.

(** The text of [file] as iterating the file object yields it (text mode,
    universal newlines): every line with its terminator, CR LF and CR
    both read as LF. *)
Fixpoint file_lines_go (cur : str) (s : str) : list str :=
  match s with
  | [] => match cur with [] => [] | _ => [rev cur] end
  | c :: s' =>
      if bool_decide (c = "010") then
        rev ("010" :: cur) :: file_lines_go [] s'
      else if bool_decide (c = "013") then
        rev ("010" :: cur) ::
          match s' with
          | d :: s'' =>
              if bool_decide (d = "010") then file_lines_go [] s''
              else file_lines_go [] s'
          | [] => []
          end
      else file_lines_go (c :: cur) s'
  end.

Definition file_lines (text : str) : list str := file_lines_go [] text.

(** The list comprehension of [load_sources] over the lines of a file. *)
Definition read_sources (text : str) : list str :=
  map (fun line => strip (default [] (head (split "#" line))))
    (filter (fun line => strip line ≠ [] ∧ startswith line (lit "#") = false)
       (file_lines text)).

Inductive encoding : Type := Utf8Sig | Utf8 | Gbk.

(** [load_sources]: [decode enc] is the text of the file read with the
    encoding [enc], [None] when opening or decoding raises. *)
Definition load_sources (decode : encoding -> option str) : list str :=
  (fix go (encs : list encoding) : list str :=
     match encs with
     | [] => []
     | enc :: encs' =>
         match decode enc with
         | Some text => read_sources text
         | None => go encs'
         end
     end) [Utf8Sig; Utf8; Gbk].

(** The record that [run] stores for a source.  The integers are Python
    integers; [duplicate_rate] is the exact quotient, of which the Python
    float is the nearest double. *)
Record source_report : Type := SourceReport {
  total : Z;
  duplicate : Z;
  distinct : Z;
  duplicate_rate : Q
}.

(** [a / b] on integers; [None] is [ZeroDivisionError]. *)
Definition true_div (a b : Z) : option Q :=
  if (b =? 0)%Z then None else Some (inject_Z a / inject_Z b)%Q.

(** [run], lines 91 to 93: the rule -> sources mapping. *)
Definition index_rule (src : str) (rs : gmap str (list str)) (rule : str)
  : gmap str (list str) :=
  <[rule := default [] (rs !! rule) ++ [src]]> rs.

Definition build_index (sp : list (str * gset str))
    (rs : gmap str (list str)) : gmap str (list str) :=
  foldl (fun rs '(src, rules) => foldl (index_rule src) rs (elements rules))
    rs sp.

(** [sum(1 for r in rules if len(self.rule_sources[r]) > 1)]; [None] is
    the [KeyError] of [self.rule_sources[r]]. *)
Definition count_duplicate (rs : gmap str (list str)) (rules : gset str)
  : option Z :=
  foldl (fun acc r =>
           n ← acc;
           srcs ← rs !! r;
           Some (if (1 <? Z.of_nat (length srcs))%Z then (n + 1)%Z else n))
    (Some 0%Z) (elements rules).

Definition report_source (rs : gmap str (list str)) (rules : gset str)
  : option source_report :=
  dup ← count_duplicate rs rules;
  let len := Z.of_nat (size rules) in
  rate ← true_div dup (Z.max len 1);
  Some {| total := len;
          duplicate := dup;
          distinct := (len - dup)%Z;
          duplicate_rate := rate |}.

(** [run], lines 96 to 104: [report['sources']]. *)
Definition build_report (rs : gmap str (list str))
    (sp : list (str * gset str)) : option (list (str * source_report)) :=
  foldl (fun acc '(src, rules) =>
           report ← acc;
           entry ← report_source rs rules;
           Some (dict_set src entry report))
    (Some []) sp.

(** The second stage of [run]: the new state and the report. *)
Definition aggregate (st : checker)
  : option (checker * list (str * source_report)) :=
  let rs := build_index (source_pruned st) (rule_sources st) in
  report ← build_report rs (source_pruned st);
  Some ({| source_pruned := source_pruned st; rule_sources := rs |}, report).

(** [print_report], the name under which a source is listed:
    [src.split('/')[-1][:45]]. *)
Definition display_name (src : str) : str :=
  take 45 (default [] (last (split "/" src))).


End DuplicateChecker.

(** ** The label grammar of the specification

    A domain is a sequence of dot-separated labels: labels of
    alphanumerics and hyphens, no leading or trailing hyphen, at least one
    dot, the final label alphabetic of length at least two.  Letters are
    the ASCII letters of either case. *)

Module Grammar.

Definition is_alpha (c : ascii) : bool := between 97 122 c || between 65 90 c.

Definition is_alnum (c : ascii) : bool := is_alpha c || between 48 57 c.

Definition label_ok (l : str) : bool :=
  match l with
  | [] => false
  | c :: _ =>
      forallb (fun x => is_alnum x || bool_decide (x = "-")) l
      && negb (bool_decide (c = "-"))
      && negb (bool_decide (last l = Some "-"))
  end.

Definition tld_ok (l : str) : bool :=
  forallb is_alpha l && (2 <=? length l)%nat.

Definition valid_domain (d : str) : bool :=
  let labels := split "." d in
  (2 <=? length labels)%nat
  && forallb label_ok labels
  && tld_ok (default [] (last labels)).

(** A Rule: the canonical string [||<domain>^] of a domain of the grammar,
    in lower case. *)
Definition canonical (r : str) : Prop :=
  exists d, r = lit "||" ++ d ++ lit "^"
    /\ valid_domain d = true /\ lower d = d.

(** One domain is an ancestor of another: it is what remains after
    dropping one or more leading labels. *)
Definition ancestor (a d : str) : Prop :=
  exists p, d = p ++ "." :: a.

End Grammar.

Import Re DuplicateChecker Grammar.

(** ** The invariants of a SourceReport *)

Definition report_ok (rep : source_report) : Prop :=
  (0 <= duplicate rep <= total rep)%Z
  /\ (distinct rep + duplicate rep = total rep)%Z
  /\ (duplicate_rate rep
      == inject_Z (duplicate rep) / inject_Z (Z.max (total rep) 1))%Q
  /\ (0 <= duplicate_rate rep)%Q /\ (duplicate_rate rep <= 1)%Q
  /\ (total rep = 0%Z -> duplicate_rate rep == 0)%Q.

(** ** What the aggregation stage computes

    [sources_of r sp]: the sources, in the order of [source_pruned], whose
    rule set holds [r].  [shared sp rules]: the rules of [rules] that
    more than one entry of [sp] holds.  [expected_report sp e]: the record
    of the report for the entry [e]. *)

Definition sources_of (r : str) (sp : list (str * gset str)) : list str :=
  map fst (filter (fun e => r ∈ e.2) sp).



(** ** The invariant of [source_pruned]

    One entry per source, and every stored set is a set of Rules without
    an ancestor and a descendant. *)


(** * Lemmas *)

#[global] Arguments in_class : simpl never.

(** ** Characters *)

Ltac ascii_cases c :=
  destruct c as [[] [] [] [] [] [] [] []]; vm_compute; try reflexivity; try discriminate.

Lemma lower_char_idem c : lower_char (lower_char c) = lower_char c.
Proof. ascii_cases c. Qed.

Lemma lower_char_az09 c : in_class az09 (lower_char c) = is_alnum c.
Proof. ascii_cases c. Qed.

Lemma lower_char_az09h c :
  in_class az09h (lower_char c) = is_alnum c || bool_decide (c = "-").
Proof. ascii_cases c. Qed.

Lemma lower_char_az c : in_class az (lower_char c) = is_alpha c.
Proof. ascii_cases c. Qed.

Lemma lower_char_fixed c : in_class az09h c = true -> lower_char c = c.
Proof. ascii_cases c. Qed.

Lemma lower_char_eq_dot c : lower_char c = "." <-> c = ".".
Proof. split; ascii_cases c. Qed.

Lemma lower_char_eq_dollar c : lower_char c = "$" <-> c = "$".
Proof. split; ascii_cases c. Qed.

Lemma az09h_not_dot c : in_class az09h c = true -> c <> ".".
Proof. ascii_cases c. Qed.

Lemma az09_az09h c : in_class az09 c = true -> in_class az09h c = true.
Proof. ascii_cases c. Qed.

Lemma az_az09 c : in_class az c = true -> in_class az09 c = true.
Proof. ascii_cases c. Qed.

Lemma az09_not_hyphen c : in_class az09 c = true -> c <> "-".
Proof. ascii_cases c. Qed.

Lemma az09h_split c :
  in_class az09h c = in_class az09 c || bool_decide (c = "-").
Proof. ascii_cases c. Qed.

(** ** Strings *)

Lemma lower_idem s : lower (lower s) = lower s.
Proof.
  unfold lower. rewrite map_map. apply map_ext. intros c. apply lower_char_idem.
Qed.

Lemma lower_app s t : lower (s ++ t) = lower s ++ lower t.
Proof. apply map_app. Qed.

Lemma lower_fixed s : forallb (in_class az09h) s = true -> lower s = s.
Proof.
  induction s as [|c s IH]; simpl; [done|].
  intros [Hc Hs]%andb_prop. by rewrite (lower_char_fixed c Hc), IH.
Qed.

Lemma startswith_spec s p : startswith s p = true <-> exists t, s = p ++ t.
Proof.
  revert s. induction p as [|a p IH]; intros s; simpl.
  - split; eauto.
  - destruct s as [|b s].
    + split; [done | intros [t Ht]; discriminate].
    + rewrite andb_true_iff, bool_decide_eq_true, IH. split.
      * intros [-> [t ->]]. eauto.
      * intros [t Ht]. injection Ht as -> ->. eauto.
Qed.

Lemma endswith_spec s p : endswith s p = true <-> exists t, s = t ++ p.
Proof.
  unfold endswith. rewrite startswith_spec. split.
  - intros [t Ht]. exists (rev t).
    rewrite <- (rev_involutive s), Ht, rev_app_distr. by rewrite rev_involutive.
  - intros [t ->]. exists (rev t). apply rev_app_distr.
Qed.

Lemma contains_spec c s : contains c s = true <-> c ∈ s.
Proof.
  unfold contains. rewrite existsb_exists. split.
  - intros [x [Hx ->%bool_decide_eq_true]]. by apply list_elem_of_In.
  - intros H. exists c. split; [by apply list_elem_of_In | by apply bool_decide_eq_true].
Qed.

Lemma contains_lower_dollar s : contains "$" (lower s) = contains "$" s.
Proof.
  unfold contains, lower. induction s as [|c s IH]; simpl; [done|].
  rewrite IH. f_equal. apply bool_decide_ext, lower_char_eq_dollar.
Qed.

Lemma slice_2_m1_envelope a b d z : slice_2_m1 (a :: b :: d ++ [z]) = d.
Proof. unfold slice_2_m1. simpl. apply removelast_last. Qed.

Lemma slice_2_m1_rule d : slice_2_m1 (lit "||" ++ d ++ lit "^") = d.
Proof. apply slice_2_m1_envelope. Qed.

Lemma lstrip_decomp s :
  exists ws, s = ws ++ lstrip s /\ forallb is_space ws = true.
Proof.
  induction s as [|c s [ws [Hs Hws]]]; simpl.
  - by exists [].
  - destruct (is_space c) eqn:Hc.
    + exists (c :: ws). simpl. rewrite Hc, Hws. by rewrite Hs at 1.
    + by exists [].
Qed.

Lemma forallb_rev {A} (f : A -> bool) l : forallb f (rev l) = forallb f l.
Proof.
  induction l as [|x l IH]; simpl; [done|].
  rewrite forallb_app, IH. simpl. rewrite andb_true_r. apply andb_comm.
Qed.

Lemma rstrip_decomp s :
  exists ws, s = rstrip s ++ ws /\ forallb is_space ws = true.
Proof.
  unfold rstrip. destruct (lstrip_decomp (rev s)) as [ws [Hs Hws]].
  exists (rev ws). rewrite forallb_rev. split; [|done].
  rewrite <- rev_app_distr, <- Hs. by rewrite rev_involutive.
Qed.

Lemma strip_decomp s :
  exists ws1 ws2, s = ws1 ++ strip s ++ ws2
    /\ forallb is_space ws1 = true /\ forallb is_space ws2 = true.
Proof.
  unfold strip. destruct (lstrip_decomp s) as [ws1 [H1 Hws1]].
  destruct (rstrip_decomp (lstrip s)) as [ws2 [H2 Hws2]].
  exists ws1, ws2. by rewrite <- H2, <- H1.
Qed.

Lemma lstrip_spaces ws s :
  forallb is_space ws = true -> lstrip (ws ++ s) = lstrip s.
Proof.
  induction ws as [|c ws IH]; simpl; [done|].
  intros [-> Hws]%andb_prop. auto.
Qed.

Lemma rstrip_spaces s ws :
  forallb is_space ws = true -> rstrip (s ++ ws) = rstrip s.
Proof.
  intros Hws. unfold rstrip. rewrite rev_app_distr, lstrip_spaces; [done|].
  by rewrite forallb_rev.
Qed.

Lemma rstrip_last s c : is_space c = false -> rstrip (s ++ [c]) = s ++ [c].
Proof.
  intros Hc. unfold rstrip. rewrite rev_app_distr. simpl. rewrite Hc.
  simpl. by rewrite rev_involutive.
Qed.

(** [strip] removes the white space around a string that starts and ends
    with characters that are not white space. *)
Lemma strip_core ws1 a m z ws2 :
  forallb is_space ws1 = true -> forallb is_space ws2 = true ->
  is_space a = false -> is_space z = false ->
  strip (ws1 ++ (a :: m ++ [z]) ++ ws2) = a :: m ++ [z].
Proof.
  intros H1 H2 Ha Hz. unfold strip. rewrite lstrip_spaces by done.
  simpl. rewrite Ha. rewrite app_comm_cons, rstrip_spaces by done.
  by rewrite app_comm_cons, rstrip_last.
Qed.

Lemma strip_fixed a m z :
  is_space a = false -> is_space z = false ->
  strip (a :: m ++ [z]) = a :: m ++ [z].
Proof.
  intros Ha Hz.
  pose proof (strip_core [] a m z [] eq_refl eq_refl Ha Hz) as H.
  simpl in H. by rewrite app_nil_r in H.
Qed.

Lemma strip_keeps c s : is_space c = false -> c ∈ s -> c ∈ strip s.
Proof.
  intros Hc Hin. destruct (strip_decomp s) as [ws1 [ws2 [Hs [H1 H2]]]].
  rewrite Hs in Hin.
  assert (Hno : forall ws, forallb is_space ws = true -> c ∉ ws).
  { intros ws Hws Hcw. apply list_elem_of_In in Hcw.
    rewrite forallb_forall in Hws. specialize (Hws c Hcw). congruence. }
  apply elem_of_app in Hin as [Hin|Hin]; [by apply Hno in Hin|].
  apply elem_of_app in Hin as [Hin|Hin]; [done | by apply Hno in Hin].
Qed.

(** *** [split] and [join] *)

Lemma split_nonempty sep s : split sep s <> [].
Proof.
  destruct s as [|c s]; simpl; [done|].
  case_bool_decide; [done|]. by destruct (split sep s).
Qed.

Lemma join_cons sep p q rest :
  join sep (p :: q :: rest) = p ++ sep ++ join sep (q :: rest).
Proof. reflexivity. Qed.

Lemma join_split sep s : join [sep] (split sep s) = s.
Proof.
  induction s as [|c s IH]; simpl; [done|].
  case_bool_decide as Hc.
  - subst c. destruct (split sep s) as [|w ws] eqn:Hsp.
    + by apply split_nonempty in Hsp.
    + by rewrite join_cons, IH.
  - destruct (split sep s) as [|w ws] eqn:Hsp.
    + by apply split_nonempty in Hsp.
    + rewrite <- IH. by destruct ws.
Qed.

Lemma split_no_sep sep s : sep ∉ s -> split sep s = [s].
Proof.
  induction s as [|c s IH]; simpl; [done|].
  intros Hn. apply not_elem_of_cons in Hn as [Hc Hs].
  rewrite bool_decide_eq_false_2 by congruence. by rewrite IH.
Qed.

Lemma split_app_sep sep a b :
  sep ∉ a -> split sep (a ++ sep :: b) = a :: split sep b.
Proof.
  induction a as [|c a IH]; simpl.
  - intros _. by rewrite bool_decide_eq_true_2.
  - intros Hn. apply not_elem_of_cons in Hn as [Hc Ha].
    rewrite bool_decide_eq_false_2 by congruence. by rewrite IH.
Qed.

Lemma join_app sep l1 l2 :
  l1 <> [] -> l2 <> [] ->
  join sep (l1 ++ l2) = join sep l1 ++ sep ++ join sep l2.
Proof.
  intros H1 H2. induction l1 as [|p l1 IH]; [done|].
  destruct l1 as [|q l1].
  - simpl. by destruct l2.
  - change ((p :: q :: l1) ++ l2) with (p :: q :: (l1 ++ l2)).
    rewrite !join_cons. change (q :: l1 ++ l2) with ((q :: l1) ++ l2).
    rewrite IH by done. by rewrite <- !app_assoc.
Qed.

Lemma split_lower s : split "." (lower s) = map lower (split "." s).
Proof.
  induction s as [|c s IH]; simpl; [done|].
  rewrite (bool_decide_ext _ _ (lower_char_eq_dot c)).
  case_bool_decide; simpl; rewrite IH; [done|].
  by destruct (split "." s).
Qed.

Lemma lower_join ls : lower (join (lit ".") ls) = join (lit ".") (map lower ls).
Proof.
  induction ls as [|p ls IH]; [done|].
  destruct ls as [|q ls]; [done|].
  change (map lower (p :: q :: ls)) with (lower p :: lower q :: map lower ls).
  rewrite !join_cons, !lower_app. by rewrite IH.
Qed.

(** The suffixes that the pruner tries are the ancestors of a domain. *)
Lemma split_suffix p a :
  exists i, 1 <= i < length (split "." (p ++ "." :: a))
    /\ drop i (split "." (p ++ "." :: a)) = split "." a.
Proof.
  induction p as [|c p [i [Hi Hd]]]; simpl.
  - exists 1. split; [|done]. simpl.
    pose proof (split_nonempty "." a). destruct (split "." a); simpl; [done|lia].
  - case_bool_decide.
    + exists (S i). simpl. split; [lia | done].
    + destruct (split "." (p ++ "." :: a)) as [|w ws]; [simpl in Hi; lia|].
      exists i. split; [done|]. destruct i; [lia | done].
Qed.

Lemma ancestor_parts a d :
  ancestor a d <->
  exists i, 1 <= i < length (split "." d)
    /\ join (lit ".") (drop i (split "." d)) = a.
Proof.
  split.
  - intros [p ->]. destruct (split_suffix p a) as [i [Hi Hd]].
    exists i. split; [done|]. rewrite Hd. apply join_split.
  - intros [i [Hi <-]]. exists (join (lit ".") (take i (split "." d))).
    rewrite <- (join_split "." d) at 1.
    rewrite <- (take_drop i (split "." d)) at 1.
    apply (join_app (lit ".")).
    + intros Ht%(f_equal length). rewrite length_take in Ht. simpl in Ht. lia.
    + intros Ht%(f_equal length). rewrite length_drop in Ht. simpl in Ht. lia.
Qed.

Lemma ancestor_shorter a d : ancestor a d -> length a < length d.
Proof. intros [p ->]. rewrite length_app. simpl. lia. Qed.

(** ** The matcher decides the language of a pattern *)

Lemma nullable_lang r : nullable r = true <-> lang r [].
Proof.
  split.
  - induction r; simpl; intros H; try discriminate.
    + constructor.
    + apply andb_prop in H as [H1 H2].
      change (@nil ascii) with (@nil ascii ++ []). constructor; auto.
    + apply orb_prop in H as [H|H]; [apply lang_alt_l | apply lang_alt_r]; auto.
    + constructor.
  - intros H. remember [] as s eqn:Hs. induction H; simpl; try done.
    + apply app_eq_nil in Hs as [-> ->]. by rewrite IHlang1, IHlang2.
    + by rewrite (IHlang Hs).
    + rewrite (IHlang Hs). apply orb_true_r.
Qed.

Lemma deriv_sound c r s : lang (deriv c r) s -> lang r (c :: s).
Proof.
  revert s. induction r; simpl; intros s H.
  - inversion H.
  - inversion H.
  - destruct (in_class k c) eqn:Hk; inversion H; subst. by constructor.
  - destruct (nullable r1) eqn:Hn.
    + inversion H as [| |? ? ? ? ? ?|? ? ? H1|? ? ? H2| |]; subst.
      * inversion H1; subst. rewrite app_comm_cons. constructor; auto.
      * change (c :: s) with ([] ++ c :: s). constructor; auto.
        by apply nullable_lang.
    + inversion H; subst. rewrite app_comm_cons. constructor; auto.
  - inversion H; subst; [apply lang_alt_l | apply lang_alt_r]; auto.
  - inversion H; subst. rewrite app_comm_cons. apply lang_star_app; auto.
Qed.

Lemma deriv_complete c r s : lang r (c :: s) -> lang (deriv c r) s.
Proof.
  intros H. remember (c :: s) as cs eqn:Hcs. revert c s Hcs.
  induction H; intros x t Hcs; simpl; try discriminate.
  - injection Hcs as -> <-. rewrite H. constructor.
  - destruct s1 as [|y s1]; simpl in Hcs.
    + subst s2. apply nullable_lang in H. rewrite H.
      apply lang_alt_r. auto.
    + injection Hcs as -> <-.
      assert (lang (Cat (deriv x r1) r2) (s1 ++ s2)) by (constructor; auto).
      destruct (nullable r1); [by apply lang_alt_l | done].
  - apply lang_alt_l. auto.
  - apply lang_alt_r. auto.
  - destruct s1 as [|y s1]; simpl in Hcs.
    + subst s2. apply (IHlang2 x t eq_refl).
    + injection Hcs as -> <-. constructor; auto.
Qed.

Lemma fullmatch_lang r s : fullmatch r s = true <-> lang r s.
Proof.
  revert r. induction s as [|c s IH]; intros r; simpl.
  - apply nullable_lang.
  - rewrite IH. split; [apply deriv_sound | apply deriv_complete].
Qed.

(** *** Inversion of the pattern's constructors *)

Lemma lang_class_inv k s :
  lang (Class k) s <-> exists c, s = [c] /\ in_class k c = true.
Proof.
  split.
  - intros H. inversion H; subst. eauto.
  - intros [c [-> Hc]]. by constructor.
Qed.

Lemma lang_cat_inv r1 r2 s :
  lang (Cat r1 r2) s <-> exists s1 s2, s = s1 ++ s2 /\ lang r1 s1 /\ lang r2 s2.
Proof.
  split.
  - intros H. inversion H; subst. eauto.
  - intros [s1 [s2 [-> [H1 H2]]]]. by constructor.
Qed.

Lemma lang_opt_inv r s : lang (Opt r) s <-> lang r s \/ s = [].
Proof.
  unfold Opt. split.
  - intros H. inversion H as [| | |? ? ? H1|? ? ? H2| |]; subst; [by left|].
    inversion H2. by right.
  - intros [H| ->]; [by apply lang_alt_l | apply lang_alt_r; constructor].
Qed.

Lemma lang_star_class k s :
  lang (Star (Class k)) s <-> forallb (in_class k) s = true.
Proof.
  split.
  - intros H. remember (Star (Class k)) as r eqn:Hr.
    induction H; try discriminate; [done|].
    injection Hr as ->. rewrite forallb_app, IHlang2 by done.
    apply lang_class_inv in H as [c [-> Hc]]. simpl. by rewrite Hc.
  - induction s as [|c s IH]; simpl; [constructor|].
    intros [Hc Hs]%andb_prop. change (c :: s) with ([c] ++ s).
    apply lang_star_app; [by constructor | auto].
Qed.

(** ** The pattern of [normalize] and the label grammar *)

Lemma forallb_lower_az l :
  forallb (in_class az) (lower l) = forallb is_alpha l.
Proof.
  induction l as [|c l IH]; simpl; [done|]. by rewrite lower_char_az, IH.
Qed.

Lemma forallb_lower_az09h l :
  forallb (in_class az09h) (lower l)
  = forallb (fun x => is_alnum x || bool_decide (x = "-")) l.
Proof.
  induction l as [|c l IH]; simpl; [done|]. by rewrite lower_char_az09h, IH.
Qed.

Lemma lower_snoc_inv t m z :
  lower t = m ++ [z] ->
  exists m0 z0, t = m0 ++ [z0] /\ lower m0 = m /\ lower_char z0 = z.
Proof.
  intros H. destruct t as [|x t _] using rev_ind.
  - by destruct m.
  - rewrite lower_app in H. apply app_inj_tail in H as [H1 H2].
    eauto.
Qed.

Lemma last_cons_snoc {A} (c : A) m z : last (c :: m ++ [z]) = Some z.
Proof. rewrite app_comm_cons. apply last_snoc. Qed.

(** The language of [[a-z0-9]([a-z0-9-]*[a-z0-9])?]. *)
Lemma lang_label_iff s :
  lang label_re s <->
  (exists c, s = [c] /\ in_class az09 c = true)
  \/ (exists c m z, s = c :: m ++ [z] /\ in_class az09 c = true
        /\ forallb (in_class az09h) m = true /\ in_class az09 z = true).
Proof.
  unfold label_re. rewrite lang_cat_inv. split.
  - intros [s1 [s2 [-> [H1 H2]]]].
    apply lang_class_inv in H1 as [c [-> Hc]].
    apply lang_opt_inv in H2 as [H2| ->].
    + right. apply lang_cat_inv in H2 as [m [t [-> [Hm Ht]]]].
      apply lang_star_class in Hm. apply lang_class_inv in Ht as [z [-> Hz]].
      by exists c, m, z.
    + left. by exists c.
  - intros [[c [-> Hc]] | [c [m [z [-> [Hc [Hm Hz]]]]]]].
    + exists [c], []. split; [done|]. split; [by constructor|].
      apply lang_opt_inv. by right.
    + exists [c], (m ++ [z]). split; [done|]. split; [by constructor|].
      apply lang_opt_inv. left. constructor; [by apply lang_star_class|].
      by constructor.
Qed.

Lemma is_alnum_not_hyphen c : is_alnum c = true -> c <> "-".
Proof. ascii_cases c. Qed.

Lemma is_alpha_alnum c : is_alpha c = true -> is_alnum c = true.
Proof. ascii_cases c. Qed.

Lemma label_ok_iff l :
  label_ok l = true <->
  (exists c, l = [c] /\ is_alnum c = true)
  \/ (exists c m z, l = c :: m ++ [z] /\ is_alnum c = true
        /\ forallb (fun x => is_alnum x || bool_decide (x = "-")) m = true
        /\ is_alnum z = true).
Proof.
  assert (Hch : forall c, (is_alnum c || bool_decide (c = "-"))
                   && negb (bool_decide (c = "-")) = is_alnum c).
  { intros c. ascii_cases c. }
  destruct l as [|c t]; simpl.
  - split; [done|]. by intros [[c [? _]]|[c [m [z [? _]]]]].
  - destruct t as [|z m _] using rev_ind.
    + simpl. rewrite andb_true_r, Hch. split.
      * intros [Hc _]%andb_prop. left. by exists c.
      * intros [[c' [[= <-] Hc]]|[c' [m [z [[= _ Hm] _]]]]]; [|by destruct m].
        rewrite Hc. pose proof (is_alnum_not_hyphen _ Hc).
        rewrite bool_decide_eq_false_2; [done | congruence].
    + rewrite last_cons_snoc, forallb_app. simpl. rewrite andb_true_r.
      rewrite !andb_true_iff, !negb_true_iff, !bool_decide_eq_false. split.
      * intros [[[Hc [Hm Hz]] Hc'] Hz']. right. exists c, m, z.
        assert (z <> "-") by congruence.
        repeat split; [| done |].
        -- rewrite <- Hch, Hc. by rewrite bool_decide_eq_false_2.
        -- rewrite <- Hch, Hz. by rewrite bool_decide_eq_false_2.
      * intros [[c' [[= <- Hm] ?]]|[c' [m' [z' [[= <- Hm] [Hc [Hm' Hz]]]]]]].
        { by destruct m. }
        apply app_inj_tail in Hm as [<- <-].
        pose proof (is_alnum_not_hyphen _ Hc). pose proof (is_alnum_not_hyphen _ Hz).
        rewrite Hc, Hz, Hm'. simpl. repeat split; congruence.
Qed.

Lemma label_re_lower l : lang label_re (lower l) <-> label_ok l = true.
Proof.
  rewrite lang_label_iff, label_ok_iff. split.
  - intros [[c' [Hl Hc]] | [c' [m' [z' [Hl [Hc [Hm Hz]]]]]]].
    + left. destruct l as [|c [|]]; try discriminate. injection Hl as <-.
      exists c. by rewrite <- lower_char_az09.
    + right. destruct l as [|c t]; [discriminate|]. injection Hl as <- Ht.
      apply lower_snoc_inv in Ht as [m [z [-> [<- <-]]]].
      exists c, m, z. by rewrite <- !lower_char_az09, <- forallb_lower_az09h.
  - intros [[c [-> Hc]] | [c [m [z [-> [Hc [Hm Hz]]]]]]].
    + left. exists (lower_char c). by rewrite lower_char_az09.
    + right. exists (lower_char c), (lower m), (lower_char z).
      rewrite !lower_char_az09, forallb_lower_az09h.
      split; [|done]. simpl. by rewrite lower_app.
Qed.

(** The language of [[a-z]{2,}]. *)
Lemma lang_tld_iff s :
  lang (AtLeast 2 (Class az)) s <->
  forallb (in_class az) s = true /\ 2 <= length s.
Proof.
  simpl. split.
  - intros H. apply lang_cat_inv in H as [s1 [s2 [-> [H1 H2]]]].
    apply lang_cat_inv in H2 as [s2' [s3 [-> [H2 H3]]]].
    apply lang_class_inv in H1 as [a [-> Ha]].
    apply lang_class_inv in H2 as [b [-> Hb]].
    apply lang_star_class in H3. simpl. rewrite Ha, Hb, H3. split; [done|lia].
  - intros [Hall Hlen]. destruct s as [|a [|b s]]; simpl in Hlen; try lia.
    simpl in Hall. apply andb_prop in Hall as [Ha [Hb Hs]%andb_prop].
    change (a :: b :: s) with ([a] ++ [b] ++ s).
    repeat constructor; try done. by apply lang_star_class.
Qed.

Lemma tld_re_lower l : lang (AtLeast 2 (Class az)) (lower l) <-> tld_ok l = true.
Proof.
  rewrite lang_tld_iff, forallb_lower_az. unfold tld_ok, lower.
  rewrite length_map, andb_true_iff, Nat.leb_le. done.
Qed.

Lemma tld_ok_label_ok l : tld_ok l = true -> label_ok l = true.
Proof.
  unfold tld_ok. intros [Hall Hlen%Nat.leb_le]%andb_prop.
  assert (Hf : forall m, forallb is_alpha m = true ->
     forallb (fun x => is_alnum x || bool_decide (x = "-")) m = true).
  { induction m as [|x m IH]; simpl; [done|]. intros [Hx Hm]%andb_prop.
    by rewrite (is_alpha_alnum _ Hx), IH. }
  apply label_ok_iff. right.
  destruct l as [|c t]; [simpl in Hlen; lia|].
  destruct t as [|z m _] using rev_ind; [simpl in Hlen; lia|].
  simpl in Hall. rewrite forallb_app in Hall. simpl in Hall.
  apply andb_prop in Hall as [Hc [Hm [Hz _]%andb_prop]%andb_prop].
  exists c, m, z. auto using is_alpha_alnum.
Qed.

Lemma join_labels l0 mids t :
  join (lit ".") (l0 :: mids ++ [t])
  = l0 ++ concat (map (cons ".") mids) ++ "." :: t.
Proof.
  revert l0. induction mids as [|m mids IH]; intros l0; [done|].
  change (l0 :: (m :: mids) ++ [t]) with (l0 :: m :: mids ++ [t]).
  rewrite join_cons, IH. simpl. by rewrite <- app_assoc.
Qed.

Lemma lang_dotted_labels s :
  lang (Star (Cat (Lit ".") label_re)) s <->
  exists mids, s = concat (map (cons ".") mids) /\ Forall (lang label_re) mids.
Proof.
  split.
  - intros H. remember (Star (Cat (Lit ".") label_re)) as r eqn:Hr.
    induction H; try discriminate.
    + by exists [].
    + injection Hr as ->. destruct (IHlang2 eq_refl) as [mids [-> Hm]].
      apply lang_cat_inv in H as [d [l [-> [Hd Hl]]]].
      apply lang_class_inv in Hd as [c [-> Hc]].
      assert (c = ".") as -> by (revert Hc; ascii_cases c).
      exists (l :: mids). split; [done | by constructor].
  - intros [mids [-> Hm]]. induction Hm as [|l mids Hl _ IH]; simpl.
    + constructor.
    + change ("." :: l ++ concat (map (cons ".") mids))
        with (("." :: l) ++ concat (map (cons ".") mids)).
      apply lang_star_app; [|done].
      change ("." :: l) with (["."] ++ l). constructor; [|done].
      by constructor.
Qed.

(** The language of the whole pattern: two or more dot-separated labels,
    the last one in [[a-z]{2,}]. *)
Lemma lang_domain_iff s :
  lang domain_re s <->
  exists l0 mids t,
    s = join (lit ".") (l0 :: mids ++ [t])
    /\ lang label_re l0 /\ Forall (lang label_re) mids
    /\ lang (AtLeast 2 (Class az)) t.
Proof.
  unfold domain_re. split.
  - intros H. apply lang_cat_inv in H as [l0 [s1 [-> [Hl0 H]]]].
    apply lang_cat_inv in H as [sm [s2 [-> [Hm H]]]].
    apply lang_cat_inv in H as [d [t [-> [Hd Ht]]]].
    apply lang_class_inv in Hd as [c [-> Hc]].
    assert (c = ".") as -> by (revert Hc; ascii_cases c).
    apply lang_dotted_labels in Hm as [mids [-> Hm]].
    exists l0, mids, t. by rewrite join_labels.
  - intros [l0 [mids [t [-> [Hl0 [Hm Ht]]]]]]. rewrite join_labels.
    constructor; [done|]. constructor; [apply lang_dotted_labels; eauto|].
    change ("." :: t) with (["."] ++ t). constructor; [by constructor | done].
Qed.

Lemma label_no_dot l : lang label_re l -> "." ∉ l.
Proof.
  intros H Hin. apply lang_label_iff in H.
  assert (Hall : forallb (in_class az09h) l = true).
  { destruct H as [[c [-> Hc]] | [c [m [z [-> [Hc [Hm Hz]]]]]]]; simpl.
    - by rewrite (az09_az09h _ Hc).
    - rewrite forallb_app, (az09_az09h _ Hc), Hm. simpl.
      by rewrite (az09_az09h _ Hz). }
  rewrite forallb_forall in Hall. apply list_elem_of_In in Hin.
  by apply Hall, az09h_not_dot in Hin.
Qed.

Lemma tld_no_dot t : lang (AtLeast 2 (Class az)) t -> "." ∉ t.
Proof.
  intros [Hall _]%lang_tld_iff Hin.
  rewrite forallb_forall in Hall. apply list_elem_of_In in Hin.
  by apply Hall, az_az09, az09_az09h, az09h_not_dot in Hin.
Qed.

Lemma split_join ls :
  ls <> [] -> Forall (fun l => "." ∉ l) ls ->
  split "." (join (lit ".") ls) = ls.
Proof.
  intros Hne Hall. induction Hall as [|l ls Hl Hls IH]; [done|].
  destruct ls as [|q ls].
  - simpl. by apply split_no_sep.
  - rewrite join_cons. change (lit "." ++ ?x) with ("." :: x).
    rewrite split_app_sep by done. by rewrite IH.
Qed.

Lemma last_map_lower ls : last (map lower ls) = option_map lower (last ls).
Proof.
  induction ls as [|l ls IH]; [done|]. destruct ls; [done|]. apply IH.
Qed.

(** The pattern of [normalize], matched against the lower-cased body,
    accepts exactly the domains of the label grammar. *)
Lemma fullmatch_domain_grammar d :
  fullmatch domain_re (lower d) = valid_domain d.
Proof.
  apply eq_true_iff_eq. rewrite fullmatch_lang, lang_domain_iff.
  unfold valid_domain. rewrite !andb_true_iff, Nat.leb_le, forallb_forall.
  split.
  - intros [l0 [mids [t [Hd [Hl0 [Hm Ht]]]]]].
    assert (Hsp : map lower (split "." d) = l0 :: mids ++ [t]).
    { rewrite <- split_lower, Hd. apply split_join; [done|].
      constructor; [by apply label_no_dot|]. apply Forall_app. split.
      - eapply Forall_impl; [apply Hm|]. apply label_no_dot.
      - constructor; [by apply tld_no_dot | constructor]. }
    assert (Hlast : option_map lower (last (split "." d)) = Some t).
    { rewrite <- last_map_lower, Hsp. apply last_cons_snoc. }
    destruct (last (split "." d)) as [t0|] eqn:Ht0; [|discriminate].
    injection Hlast as <-. apply tld_re_lower in Ht.
    split; [split|done].
    + rewrite <- (length_map lower), Hsp. simpl. rewrite length_app. simpl. lia.
    + intros l Hin. apply (in_map lower) in Hin. rewrite Hsp in Hin.
      destruct Hin as [Heq|Hin]; [by apply label_re_lower; rewrite <- Heq|].
      apply in_app_or in Hin as [Hin|[Hin|[]]].
      * apply label_re_lower. apply list_elem_of_In in Hin.
        by apply (proj1 (Forall_forall _ _) Hm).
      * apply tld_ok_label_ok, tld_re_lower. rewrite <- Hin.
        by apply tld_re_lower.
  - intros [[Hlen Hlab] Htld].
    destruct (split "." d) as [|l0 rest] eqn:Hsp; [simpl in Hlen; lia|].
    destruct rest as [|t mids _] using rev_ind; [simpl in Hlen; lia|].
    rewrite last_cons_snoc in Htld. simpl in Htld.
    exists (lower l0), (map lower mids), (lower t).
    split; [|split; [|split]].
    + rewrite <- (join_split "." d), Hsp. change ["."] with (lit ".").
      rewrite lower_join. simpl. by rewrite map_app.
    + apply label_re_lower, Hlab. by left.
    + apply Forall_forall. intros l' Hin. apply list_elem_of_In in Hin.
      apply in_map_iff in Hin as [l [<- Hin]].
      apply label_re_lower, Hlab. right. apply in_or_app. by left.
    + by apply tld_re_lower.
Qed.

Lemma forallb_weaken {A} (f g : A -> bool) l :
  (forall x, f x = true -> g x = true) ->
  forallb f l = true -> forallb g l = true.
Proof.
  intros Hfg. rewrite !forallb_forall. auto.
Qed.

Lemma lang_consumes r s : lang r s -> forallb (consumes r) s = true.
Proof.
  induction 1 as [|k c Hc|r1 r2 s1 s2 _ IH1 _ IH2|r1 r2 s _ IH|r1 r2 s _ IH
                 |r|r s1 s2 _ IH1 _ IH2].
  - done.
  - simpl. by rewrite Hc.
  - rewrite forallb_app, andb_true_iff. split.
    + eapply forallb_weaken; [|apply IH1]. intros c Hc. simpl. by rewrite Hc.
    + eapply forallb_weaken; [|apply IH2]. intros c Hc. simpl. rewrite Hc.
      apply orb_true_r.
  - eapply forallb_weaken; [|apply IH]. intros c Hc. simpl. by rewrite Hc.
  - eapply forallb_weaken; [|apply IH]. intros c Hc. simpl. rewrite Hc.
    apply orb_true_r.
  - done.
  - rewrite forallb_app, andb_true_iff. split; [exact IH1 | exact IH2].
Qed.

Lemma consumes_domain_re c :
  consumes domain_re c = in_class az09h c || bool_decide (c = ".").
Proof. ascii_cases c. Qed.

(** An accepted domain is written with [a-z], [0-9], [-] and [.] only. *)
Lemma fullmatch_domain_chars d c :
  fullmatch domain_re d = true -> c ∈ d ->
  in_class az09h c = true \/ c = ".".
Proof.
  intros Hm%fullmatch_lang%lang_consumes Hin.
  rewrite forallb_forall in Hm. apply list_elem_of_In, Hm in Hin.
  rewrite consumes_domain_re in Hin.
  apply orb_prop in Hin as [?|?%bool_decide_eq_true]; auto.
Qed.

(** ** [normalize] *)

(** The test [line.startswith('||') and line.endswith('^')] holds exactly
    for the lines of the shape [||<body>^]. *)
Lemma envelope_spec l :
  startswith l (lit "||") && endswith l (lit "^") = true <->
  exists body, l = lit "||" ++ body ++ lit "^".
Proof.
  rewrite andb_true_iff, startswith_spec, endswith_spec. split.
  - intros [[t ->] [t' Ht']]. destruct t as [|z t _] using rev_ind.
    + by destruct t' as [|? [|? [|? ?]]].
    + exists t. change (lit "||" ++ t ++ [z]) with (("|" :: "|" :: t) ++ [z]) in Ht'.
      apply app_inj_tail in Ht' as [_ ->]. done.
  - intros [body ->]. split; [by eexists|].
    exists ("|" :: "|" :: body). done.
Qed.

Lemma lower_envelope body :
  lower (lit "||" ++ body ++ lit "^") = lit "||" ++ lower body ++ lit "^".
Proof. by rewrite !lower_app. Qed.

Lemma strip_envelope ws1 body ws2 :
  forallb is_space ws1 = true -> forallb is_space ws2 = true ->
  strip (ws1 ++ lit "||" ++ body ++ lit "^" ++ ws2)
  = lit "||" ++ body ++ lit "^".
Proof.
  intros H1 H2.
  pose proof (strip_core ws1 "|" ("|" :: body) "^" ws2 H1 H2 eq_refl eq_refl) as H.
  etrans; [|exact H]. do 2 f_equal. simpl. by rewrite <- app_assoc.
Qed.

(** What [normalize] answers on a line of the envelope shape. *)
Lemma normalize_envelope line body :
  lower (strip line) = lit "||" ++ body ++ lit "^" ->
  normalize line
  = if contains "$" body then []
    else if valid_domain body then lit "||" ++ body ++ lit "^" else [].
Proof.
  intros Hl. unfold normalize. rewrite Hl.
  assert (Henv : startswith (lit "||" ++ body ++ lit "^") (lit "||")
                 && endswith (lit "||" ++ body ++ lit "^") (lit "^") = true).
  { apply envelope_spec. eauto. }
  rewrite Henv, slice_2_m1_rule.
  assert (Hd : contains "$" (lit "||" ++ body ++ lit "^") = contains "$" body).
  { unfold contains. simpl. rewrite existsb_app. simpl. by rewrite !orb_false_r. }
  rewrite Hd. destruct (contains "$" body); [done|]. simpl.
  assert (Hlow : lower body = body).
  { pose proof (lower_idem (strip line)) as Hi. rewrite Hl, lower_envelope in Hi.
    injection Hi as Hi. by apply app_inv_tail in Hi. }
  rewrite <- fullmatch_domain_grammar, Hlow.
  by destruct (fullmatch domain_re body).
Qed.

Lemma valid_domain_no_dollar d : valid_domain d = true -> contains "$" (lower d) = false.
Proof.
  rewrite <- fullmatch_domain_grammar. intros Hm.
  apply not_true_is_false. intros Hin%contains_spec.
  by destruct (fullmatch_domain_chars _ _ Hm Hin).
Qed.

Lemma valid_domain_lower d : valid_domain (lower d) = valid_domain d.
Proof. by rewrite <- !fullmatch_domain_grammar, lower_idem. Qed.

(** An accepted line is a Rule, and it is the trimmed, lower-cased line. *)
Lemma normalize_accepts line :
  normalize line <> [] ->
  normalize line = lower (strip line) /\ canonical (normalize line).
Proof.
  intros Hne.
  destruct (startswith (lower (strip line)) (lit "||")
            && endswith (lower (strip line)) (lit "^")) eqn:Henv.
  - apply envelope_spec in Henv as [body Hl].
    rewrite (normalize_envelope line body Hl) in Hne |- *.
    destruct (contains "$" body); [done|].
    destruct (valid_domain body) eqn:Hv; [|done].
    split; [done|]. exists body. split; [done|]. split; [done|].
    pose proof (lower_idem (strip line)) as Hi. rewrite Hl, lower_envelope in Hi.
    injection Hi as Hi. by apply app_inv_tail in Hi.
  - exfalso. apply Hne. unfold normalize. by rewrite Henv.
Qed.

(** The Rules are the non-empty fixed points of [normalize]. *)
Lemma canonical_normalize r : canonical r <-> r <> [] /\ normalize r = r.
Proof.
  split.
  - intros [d [-> [Hv Hlow]]]. split; [done|].
    assert (Hs : strip (lit "||" ++ d ++ lit "^") = lit "||" ++ d ++ lit "^").
    { apply (strip_fixed "|" ("|" :: d) "^"); reflexivity. }
    rewrite (normalize_envelope _ d).
    + pose proof (valid_domain_no_dollar d Hv) as Hd. rewrite Hlow in Hd.
      by rewrite Hd, Hv.
    + by rewrite Hs, lower_envelope, Hlow.
  - intros [Hne Hfix]. rewrite <- Hfix in Hne |- *.
    by apply normalize_accepts.
Qed.

Lemma normalize_idem line : normalize (normalize line) = normalize line.
Proof.
  destruct (decide (normalize line = [])) as [->|Hne]; [done|].
  apply normalize_accepts in Hne as [_ Hc].
  by apply canonical_normalize in Hc as [_ Hc].
Qed.

(** ** [prune_subdomain] *)

Lemma has_parent_spec (domains : gset str) rule :
  has_parent domains rule = true <->
  exists a, ancestor a (slice_2_m1 rule) /\ a ∈ domains.
Proof.
  unfold has_parent. rewrite existsb_exists. split.
  - intros [i [Hi Hin%bool_decide_eq_true]]. apply in_seq in Hi.
    eexists. split; [|exact Hin]. apply ancestor_parts. exists i.
    split; [lia | done].
  - intros [a [[i [Hi <-]]%ancestor_parts Hin]]. exists i. split.
    + apply in_seq. lia.
    + by apply bool_decide_eq_true.
Qed.

Lemma elem_of_domains (rules : gset str) a :
  a ∈ (set_map slice_2_m1 rules : gset str) <->
  exists r, r ∈ rules /\ slice_2_m1 r = a.
Proof.
  rewrite elem_of_map. split.
  - intros [r [-> Hr]]. eauto.
  - intros [r [Hr <-]]. eauto.
Qed.

(** The loop of [prune_subdomain] keeps the rules without a parent. *)
Lemma prune_loop (domains : gset str) (l : list str) (kept : gset str) r :
  r ∈ foldl (fun kept rule =>
               if has_parent domains rule then kept else kept ∪ {[rule]})
        kept l
  <-> r ∈ kept \/ (r ∈ l /\ has_parent domains r = false).
Proof.
  revert kept. induction l as [|x l IH]; intros kept; simpl.
  - rewrite elem_of_nil. tauto.
  - rewrite IH, elem_of_cons. destruct (has_parent domains x) eqn:Hx.
    + split; [tauto|]. intros [? | [[-> | ?] ?]]; [tauto|congruence|tauto].
    + rewrite elem_of_union, elem_of_singleton. split; [|tauto].
      intros [[? | ->] | [? ?]]; tauto.
Qed.

Lemma elem_of_prune (rules : gset str) r :
  r ∈ prune_subdomain rules <->
  r ∈ rules /\ has_parent (set_map slice_2_m1 rules) r = false.
Proof.
  unfold prune_subdomain. case_bool_decide as He.
  - subst rules. split; [by intros ?%not_elem_of_empty|].
    by intros [?%not_elem_of_empty _].
  - rewrite prune_loop, elem_of_elements, elem_of_empty. tauto.
Qed.

(** A rule survives exactly when no rule of the set has an ancestor of its
    domain as domain. *)
Lemma elem_of_prune_ancestor (rules : gset str) r :
  r ∈ prune_subdomain rules <->
  r ∈ rules
  /\ forall r', r' ∈ rules -> ~ ancestor (slice_2_m1 r') (slice_2_m1 r).
Proof.
  rewrite elem_of_prune. split.
  - intros [Hr Hp]. split; [done|]. intros r' Hr' Ha.
    apply not_true_iff_false in Hp. apply Hp, has_parent_spec.
    eexists. split; [exact Ha|]. apply elem_of_domains. eauto.
  - intros [Hr Hno]. split; [done|]. apply not_true_iff_false.
    intros [a [Ha [r' [Hr' <-]]%elem_of_domains]]%has_parent_spec.
    by apply (Hno r').
Qed.

Lemma prune_subseteq (rules : gset str) : prune_subdomain rules ⊆ rules.
Proof. intros r Hr. by apply elem_of_prune in Hr as [? _]. Qed.

Lemma ancestor_irrefl d : ~ ancestor d d.
Proof. intros H%ancestor_shorter. lia. Qed.

#[global] Instance ancestor_dec a d : Decision (ancestor a d).
Proof.
  refine (cast_if (decide (existsb
            (fun i => bool_decide (join (lit ".") (drop i (split "." d)) = a))
            (seq 1 (length (split "." d) - 1)) = true)));
    rewrite ancestor_parts, existsb_exists in *.
  - destruct e as [i [Hi Hj%bool_decide_eq_true]]. apply in_seq in Hi.
    exists i. split; [lia | done].
  - intros [i [Hi Hj]]. apply n. exists i. split; [apply in_seq; lia|].
    by apply bool_decide_eq_true.
Defined.

(** ** The aggregation stage *)

Lemma index_rule_keys (src : str) (rs : gmap str (list str)) (rule r : str) :
  is_Some (index_rule src rs rule !! r) <-> r = rule \/ is_Some (rs !! r).
Proof.
  unfold index_rule. rewrite lookup_insert_is_Some.
  destruct (decide (rule = r)) as [->|Hne]; [tauto|].
  split; [intros [?|[_ ?]]; [done | by right] | intros [->|?]; [done | by right]].
Qed.

Lemma index_rules_keys (src : str) (l : list str) (rs : gmap str (list str)) (r : str) :
  is_Some (foldl (index_rule src) rs l !! r) <-> r ∈ l \/ is_Some (rs !! r).
Proof.
  revert rs. induction l as [|x l IH]; intros rs; simpl.
  - rewrite elem_of_nil. tauto.
  - rewrite IH, index_rule_keys, elem_of_cons. tauto.
Qed.

(** After the first loop every rule of every source is a key of
    [rule_sources]. *)
Lemma build_index_keys (sp : list (str * gset str)) (rs : gmap str (list str)) (r : str) :
  (exists src rules, (src, rules) ∈ sp /\ r ∈ rules) \/ is_Some (rs !! r) ->
  is_Some (build_index sp rs !! r).
Proof.
  unfold build_index. revert rs.
  induction sp as [|[src rules] sp IH]; intros rs; simpl.
  - intros [[src [rules [Hin _]]] | H]; [|done]. by apply elem_of_nil in Hin.
  - intros [[src' [rules' [Hin Hr]]] | H]; apply IH.
    + apply elem_of_cons in Hin as [[= -> ->] | Hin].
      * right. apply index_rules_keys. left. by apply elem_of_elements.
      * left. eauto.
    + right. apply index_rules_keys. by right.
Qed.

Lemma count_duplicate_loop (rs : gmap str (list str)) (l : list str) acc :
  (forall r, r ∈ l -> is_Some (rs !! r)) ->
  exists n,
    foldl (fun acc r =>
             n ← acc;
             srcs ← rs !! r;
             Some (if (1 <? Z.of_nat (length srcs))%Z then (n + 1)%Z else n))
      (Some acc) l = Some n
    /\ (acc <= n <= acc + Z.of_nat (length l))%Z.
Proof.
  revert acc. induction l as [|x l IH]; intros acc Hkeys; simpl.
  - exists acc. split; [done | lia].
  - destruct (Hkeys x) as [srcs Hs]; [by left|]. rewrite Hs. simpl.
    destruct (IH (if (1 <? Z.of_nat (length srcs))%Z then (acc + 1)%Z else acc))
      as [n [Hn Hb]].
    { intros r Hr. apply Hkeys. by right. }
    exists n. split; [done|]. destruct (1 <? Z.of_nat (length srcs))%Z; lia.
Qed.

Lemma count_duplicate_total (rs : gmap str (list str)) (rules : gset str) :
  (forall r, r ∈ rules -> is_Some (rs !! r)) ->
  exists n, count_duplicate rs rules = Some n
    /\ (0 <= n <= Z.of_nat (size rules))%Z.
Proof.
  intros Hkeys. destruct (count_duplicate_loop rs (elements rules) 0%Z) as [n [Hn Hb]].
  { intros r Hr. by apply Hkeys, elem_of_elements. }
  exists n. split; [done|]. unfold size, set_size. simpl. lia.
Qed.

Lemma rate_bounds (dup len : Z) :
  (0 <= dup <= len)%Z ->
  let rate := (inject_Z dup / inject_Z (Z.max len 1))%Q in
  (0 <= rate)%Q /\ (rate <= 1)%Q /\ (len = 0%Z -> rate == 0)%Q.
Proof.
  intros Hb rate.
  assert (Hpos : (0 < inject_Z (Z.max len 1))%Q).
  { change 0%Q with (inject_Z 0). rewrite <- Zlt_Qlt. lia. }
  split; [|split].
  - apply Qle_shift_div_l; [done|]. rewrite Qmult_0_l.
    change 0%Q with (inject_Z 0). rewrite <- Zle_Qle. lia.
  - apply Qle_shift_div_r; [done|]. rewrite Qmult_1_l. rewrite <- Zle_Qle. lia.
  - intros ->. assert (dup = 0%Z) as -> by lia. reflexivity.
Qed.

Lemma report_source_ok (rs : gmap str (list str)) (rules : gset str) :
  (forall r, r ∈ rules -> is_Some (rs !! r)) ->
  exists rep, report_source rs rules = Some rep
    /\ report_ok rep /\ total rep = Z.of_nat (size rules).
Proof.
  intros Hkeys. destruct (count_duplicate_total rs rules Hkeys) as [n [Hn Hb]].
  unfold report_source, true_div. rewrite Hn. simpl.
  destruct (Z.eqb_spec (Z.max (Z.of_nat (size rules)) 1) 0) as [?|_]; [lia|].
  simpl. eexists. split; [done|]. split; [|done].
  destruct (rate_bounds n (Z.of_nat (size rules)) Hb) as [H0 [H1 Hz]].
  unfold report_ok. simpl. repeat split; try done; lia.
Qed.

Lemma dict_set_Forall {V} (P : str * V -> Prop) k v d :
  P (k, v) -> Forall P d -> Forall P (dict_set k v d).
Proof.
  intros Hkv. induction 1 as [|[k' v'] d Hx Hd IH]; simpl.
  - by constructor.
  - case_bool_decide; constructor; auto.
Qed.

Lemma dict_set_keys {V} (k : str) (v : V) d k' :
  k' ∈ map fst (dict_set k v d) <-> k' = k \/ k' ∈ map fst d.
Proof.
  induction d as [|[k0 v0] d IH]; simpl.
  - rewrite elem_of_cons, elem_of_nil. tauto.
  - case_bool_decide as Hk; simpl; rewrite !elem_of_cons.
    + subst k0. tauto.
    + rewrite IH. tauto.
Qed.

(** The second loop of [run] raises no [KeyError] and no
    [ZeroDivisionError]; it stores one report per source, and whatever
    holds of the report of each source holds of the stored ones. *)
Lemma build_report_loop (rs : gmap str (list str)) (sp : list (str * gset str))
    (acc : list (str * source_report)) (P : str * source_report -> Prop) :
  (forall src rules, (src, rules) ∈ sp ->
     exists rep, report_source rs rules = Some rep /\ P (src, rep)) ->
  Forall P acc ->
  exists report,
    foldl (fun acc '(src, rules) =>
             report ← acc;
             entry ← report_source rs rules;
             Some (dict_set src entry report))
      (Some acc) sp = Some report
    /\ Forall P report
    /\ (forall src, src ∈ map fst report
                    <-> src ∈ map fst acc \/ src ∈ map fst sp).
Proof.
  revert acc. induction sp as [|[src rules] sp IH]; intros acc Hsp Hacc; simpl.
  - exists acc. split; [done|]. split; [done|]. intros src.
    rewrite elem_of_nil. tauto.
  - destruct (Hsp src rules) as [rep [Hrep HP]]; [by left|].
    rewrite Hrep. simpl.
    destruct (IH (dict_set src rep acc)) as [report [Hfold [HF Hkeys]]].
    + intros src' rules' Hin. apply Hsp. by right.
    + by apply dict_set_Forall.
    + exists report. split; [done|]. split; [done|]. intros src'.
      rewrite Hkeys, dict_set_keys, elem_of_cons. tauto.
Qed.

(** Two sources that both hold the one rule [r]. *)
Lemma two_sources_report (a b r : str) :
  a <> b ->
  snd <$> aggregate {| source_pruned := [(a, {[r]}); (b, {[r]})];
                       rule_sources := ∅ |}
  = Some [(a, {| total := 1; duplicate := 1; distinct := 0;
                 duplicate_rate := 1 |});
          (b, {| total := 1; duplicate := 1; distinct := 0;
                 duplicate_rate := 1 |})].
Proof.
  intros Hne. unfold aggregate. cbn [source_pruned rule_sources].
  set (rs := build_index [(a, {[r]}); (b, {[r]})] ∅).
  assert (Hrs : rs !! r = Some [a; b]).
  { unfold rs, build_index. cbn [foldl]. rewrite elements_singleton.
    cbn [foldl]. unfold index_rule.
    rewrite lookup_insert_eq, lookup_empty. by rewrite lookup_insert_eq. }
  assert (Hrep : report_source rs {[r]}
                 = Some {| total := 1; duplicate := 1; distinct := 0;
                           duplicate_rate := 1 |}).
  { unfold report_source, count_duplicate.
    rewrite elements_singleton, size_singleton. cbn [foldl].
    by rewrite Hrs. }
  unfold build_report. cbn [foldl]. rewrite Hrep. simpl.
  by rewrite bool_decide_eq_false_2.
Qed.

(** * The specification *)

(** Closed decidable facts, by evaluation. *)
Ltac by_decide := apply (bool_decide_unpack _); vm_compute; exact I.

(** C1. On a set of canonical Rules the pruner keeps a rule exactly when no
    ancestor of its domain (what is left of the domain after dropping one
    or more leading labels) occurs as [||ancestor^] in the set.  In
    particular, whenever [||a.b.c^] and [||b.c^] are both in the set, for
    labels [b] and [c], the first is dropped and the second is kept. *)
Theorem prune_keeps_iff_no_ancestor (R : gset str) :
  (forall r, r ∈ R -> canonical r) ->
  (forall d, lit "||" ++ d ++ lit "^" ∈ R ->
     (lit "||" ++ d ++ lit "^" ∈ prune_subdomain R
      <-> ~ exists a, ancestor a d /\ lit "||" ++ a ++ lit "^" ∈ R))
  /\ (forall a b c, "." ∉ b -> "." ∉ c ->
        lit "||" ++ (a ++ "." :: b ++ "." :: c) ++ lit "^" ∈ R ->
        lit "||" ++ (b ++ "." :: c) ++ lit "^" ∈ R ->
        (lit "||" ++ (a ++ "." :: b ++ "." :: c) ++ lit "^" ∉ prune_subdomain R)
        /\ lit "||" ++ (b ++ "." :: c) ++ lit "^" ∈ prune_subdomain R).
Proof.
  intros Hcan.
  assert (Hiff : forall d, lit "||" ++ d ++ lit "^" ∈ R ->
     (lit "||" ++ d ++ lit "^" ∈ prune_subdomain R
      <-> ~ exists a, ancestor a d /\ lit "||" ++ a ++ lit "^" ∈ R)).
  { intros d Hd. rewrite elem_of_prune_ancestor, slice_2_m1_rule. split.
    - intros [_ Hno] [a [Ha Hin]]. apply (Hno _ Hin).
      by rewrite slice_2_m1_rule.
    - intros Hno. split; [done|]. intros r' Hr' Ha. apply Hno.
      destruct (Hcan r' Hr') as [d' [-> _]]. rewrite slice_2_m1_rule in Ha.
      eauto. }
  split; [exact Hiff|]. intros a b c Hb Hc Habc Hbc. split.
  - rewrite (Hiff _ Habc). intros Hno. apply Hno. exists (b ++ "." :: c).
    split; [by exists a | done].
  - apply (Hiff _ Hbc). intros [x [[p Hx] Hin]].
    destruct (Hcan _ Hin) as [d' [Hd' [Hv _]]].
    apply (inj (app (lit "||"))), app_inv_tail in Hd'. subst d'.
    assert (Hsp : split "." (b ++ "." :: c) = [b; c]).
    { by rewrite split_app_sep, split_no_sep. }
    rewrite Hx in Hsp. destruct (split_suffix p x) as [i [Hi Hdrop]].
    rewrite Hsp in Hi, Hdrop. simpl in Hi.
    assert (i = 1) as -> by lia. simpl in Hdrop.
    unfold valid_domain in Hv. rewrite <- Hdrop in Hv. done.
Qed.

Lemma prune_keeps_iff_no_ancestor_witness :
  (lit "||ads.example.com^"
     ∉ prune_subdomain
         {[ lit "||ads.example.com^"; lit "||example.com^"; lit "||other.org^" ]})
  /\ lit "||example.com^"
       ∈ prune_subdomain
           {[ lit "||ads.example.com^"; lit "||example.com^"; lit "||other.org^" ]}.
Proof.
  assert (Hcan : forall r,
            r ∈ ({[ lit "||ads.example.com^"; lit "||example.com^";
                    lit "||other.org^" ]} : gset str) -> canonical r).
  { intros r Hr. apply canonical_normalize.
    rewrite !elem_of_union, !elem_of_singleton in Hr.
    destruct Hr as [[-> | ->] | ->]; (split; [discriminate | by vm_compute]). }
  apply (proj2 (prune_keeps_iff_no_ancestor _ Hcan)
           (lit "ads") (lit "example") (lit "com")).
  - by_decide.
  - by_decide.
  - by vm_compute.
  - by vm_compute.
Defined.

(** C2. Pruning is idempotent: [prune(prune(R)) == prune(R)] for every set
    of strings [R]. *)
Theorem prune_idempotent (R : gset str) :
  prune_subdomain (prune_subdomain R) = prune_subdomain R.
Proof.
  apply set_eq. intros r. split.
  - apply prune_subseteq.
  - intros Hr. apply elem_of_prune_ancestor. split; [done|].
    intros r' Hr'%prune_subseteq.
    apply elem_of_prune_ancestor in Hr as [_ Hno]. by apply Hno.
Qed.

(** C3. After pruning, no rule of the set has a domain that is a strict
    subdomain of the domain of a rule of the set. *)
Theorem prune_no_ancestor_pair (R : gset str) r1 r2 :
  r1 ∈ prune_subdomain R -> r2 ∈ prune_subdomain R ->
  ~ ancestor (slice_2_m1 r2) (slice_2_m1 r1).
Proof.
  intros [_ Hno]%elem_of_prune_ancestor H2%prune_subseteq. by apply Hno.
Qed.

Lemma prune_no_ancestor_pair_witness :
  ~ ancestor (slice_2_m1 (lit "||example.com^"))
      (slice_2_m1 (lit "||x.other.org^")).
Proof.
  apply (prune_no_ancestor_pair
           {[ lit "||ads.example.com^"; lit "||example.com^";
              lit "||x.other.org^" ]}).
  - by vm_compute.
  - by vm_compute.
Defined.

(** C4. For a domain [D] of the label grammar, written in any case, and
    any white space around [||D^], [normalize] returns the trimmed,
    lower-cased line, which is [||d^] for the lower-cased [d] of [D];
    and [normalize] is idempotent on every line. *)
Theorem normalize_valid_domain :
  (forall ws1 D ws2,
     forallb is_space ws1 = true -> forallb is_space ws2 = true ->
     valid_domain D = true ->
     let line := ws1 ++ lit "||" ++ D ++ lit "^" ++ ws2 in
     normalize line = lower (strip line)
     /\ normalize line = lit "||" ++ lower D ++ lit "^")
  /\ (forall line, normalize (normalize line) = normalize line).
Proof.
  split; [|apply normalize_idem].
  intros ws1 D ws2 H1 H2 Hv line.
  assert (Hl : lower (strip line) = lit "||" ++ lower D ++ lit "^").
  { unfold line. by rewrite strip_envelope, lower_envelope. }
  rewrite Hl, (normalize_envelope line (lower D) Hl).
  by rewrite valid_domain_no_dollar, valid_domain_lower, Hv.
Qed.

Lemma normalize_valid_domain_witness :
  normalize (lit "  ||Ads.Example-1.COM^ ") = lit "||ads.example-1.com^".
Proof.
  apply (proj1 normalize_valid_domain (lit "  ") (lit "Ads.Example-1.COM") (lit " "));
    reflexivity.
Defined.

(** C5. [normalize] is a total function, so it raises on no line, and it
    returns the empty string for every line that contains [$], or that is
    not of the shape [||<body>^] once trimmed and lower-cased, or whose
    body is not a domain of the label grammar. *)
Theorem normalize_rejects line :
  "$" ∈ line
  \/ (~ exists body, lower (strip line) = lit "||" ++ body ++ lit "^")
  \/ (exists body, lower (strip line) = lit "||" ++ body ++ lit "^"
        /\ valid_domain body = false) ->
  normalize line = [].
Proof.
  intros [Hd | [Hshape | [body [Hl Hv]]]].
  - assert (Hc : contains "$" (lower (strip line)) = true).
    { rewrite contains_lower_dollar. by apply contains_spec, strip_keeps. }
    unfold normalize. rewrite Hc. simpl. by rewrite andb_false_r.
  - unfold normalize.
    destruct (startswith (lower (strip line)) (lit "||")
              && endswith (lower (strip line)) (lit "^")) eqn:Henv; [|done].
    by apply envelope_spec in Henv.
  - rewrite (normalize_envelope line body Hl), Hv. by destruct (contains "$" body).
Qed.

Lemma normalize_rejects_witness :
  normalize (lit "||example.com^$third-party") = []
  /\ normalize (lit "example.com") = []
  /\ normalize (lit "||bad^") = [].
Proof.
  split; [|split]; apply normalize_rejects.
  - left. by_decide.
  - right. left. intros [body Hb]. vm_compute in Hb. discriminate.
  - right. right. by exists (lit "bad").
Defined.



(** C7. Two sources with the extracted rules
    [{||ads.example.com^, ||example.com^}] and [{||example.com^}]: both
    prune to [{||example.com^}], and the report gives both sources total 1,
    duplicate 1, distinct 0 and duplicate rate 1, whichever of the two is
    stored first. *)
Theorem two_sources_end_to_end (s1 s2 : str) :
  s1 <> s2 ->
  let raw1 : gset str := {[ lit "||ads.example.com^"; lit "||example.com^" ]} in
  let raw2 : gset str := {[ lit "||example.com^" ]} in
  let rep := {| total := 1; duplicate := 1; distinct := 0;
                duplicate_rate := 1 |} in
  prune_subdomain raw1 = {[ lit "||example.com^" ]}
  /\ prune_subdomain raw2 = {[ lit "||example.com^" ]}
  /\ snd <$> aggregate (store_pruned s2 raw2 (store_pruned s1 raw1 init))
     = Some [(s1, rep); (s2, rep)]
  /\ snd <$> aggregate (store_pruned s1 raw1 (store_pruned s2 raw2 init))
     = Some [(s2, rep); (s1, rep)].
Proof.
  intros Hne raw1 raw2 rep.
  assert (H1 : prune_subdomain raw1 = {[ lit "||example.com^" ]}) by (by vm_compute).
  assert (H2 : prune_subdomain raw2 = {[ lit "||example.com^" ]}) by (by vm_compute).
  split; [done|]. split; [done|].
  unfold store_pruned, init. cbn [source_pruned rule_sources dict_set].
  rewrite H1, H2, !bool_decide_eq_false_2 by done.
  split; by apply two_sources_report.
Qed.

Lemma two_sources_end_to_end_witness :
  snd <$> aggregate
            (store_pruned (lit "https://b.example/list.txt")
               {[ lit "||example.com^" ]}
               (store_pruned (lit "https://a.example/list.txt")
                  {[ lit "||ads.example.com^"; lit "||example.com^" ]} init))
  = Some [(lit "https://a.example/list.txt",
           {| total := 1; duplicate := 1; distinct := 0; duplicate_rate := 1 |});
          (lit "https://b.example/list.txt",
           {| total := 1; duplicate := 1; distinct := 0; duplicate_rate := 1 |})].
Proof.
  apply (two_sources_end_to_end (lit "https://a.example/list.txt")
           (lit "https://b.example/list.txt")).
  discriminate.
Defined.

(** C8. The pruner is the identity on a set in which no rule's domain is
    an ancestor of another rule's domain. *)
Theorem prune_identity (R : gset str) :
  (forall r1 r2, r1 ∈ R -> r2 ∈ R -> r1 <> r2 ->
     ~ ancestor (slice_2_m1 r2) (slice_2_m1 r1)) ->
  prune_subdomain R = R.
Proof.
  intros Hno. apply set_eq. intros r. split; [apply prune_subseteq|].
  intros Hr. apply elem_of_prune_ancestor. split; [done|]. intros r' Hr' Ha.
  destruct (decide (r = r')) as [<-|Hne].
  - by apply ancestor_irrefl in Ha.
  - by apply (Hno r r').
Qed.

Lemma prune_identity_witness :
  prune_subdomain {[ lit "||example.com^"; lit "||other.org^" ]}
  = ({[ lit "||example.com^"; lit "||other.org^" ]} : gset str).
Proof.
  apply prune_identity. intros r1 r2 H1 H2 Hne.
  rewrite elem_of_union, !elem_of_singleton in H1, H2.
  destruct H1 as [-> | ->], H2 as [-> | ->]; try done;
    by_decide.
Defined.

(** C9, as the code has it: a comment line that starts with white space
    passes both tests of the comprehension, and what is left of it before
    [#] is the empty string, which [load_sources] returns as a source. *)
Theorem load_sources_indented_comment :
  load_sources (fun _ => Some (lit "  # mirrors
")) = [[]]
  /\ load_sources (fun _ => Some (lit "https://a.example/list.txt  # main
  # mirrors
# old

https://b.example/list.txt
"))
     = [lit "https://a.example/list.txt"; []; lit "https://b.example/list.txt"].
Proof. split; reflexivity. Qed.

(** C10. Every element of [extract_rules(text)] is a non-empty canonical
    Rule and a fixed point of [normalize]; the empty string of a rejected
    line is never an element. *)
Theorem extract_rules_fixed_points text r :
  r ∈ extract_rules text ->
  r <> [] /\ normalize r = r /\ canonical r.
Proof.
  unfold extract_rules. rewrite elem_of_list_to_set.
  intros Hin%list_elem_of_In. apply in_map_iff in Hin as [line [<- Hin]].
  apply list_elem_of_In, list_elem_of_filter in Hin as [Hne _].
  split; [done|]. split; [apply normalize_idem|].
  by apply normalize_accepts.
Qed.

Lemma extract_rules_fixed_points_witness :
  lit "||a.example.com^" <> []
  /\ normalize (lit "||a.example.com^") = lit "||a.example.com^"
  /\ canonical (lit "||a.example.com^").
Proof.
  apply (extract_rules_fixed_points (lit "! title
||A.example.com^
||ads.example.com^$script
example.org")).
  by vm_compute.
Defined.

(** * Further properties of the code *)

(** ** The pruner *)

Lemma ancestor_trans a b c : ancestor a b -> ancestor b c -> ancestor a c.
Proof.
  intros [q ->] [p ->]. exists (p ++ "." :: q). by rewrite <- app_assoc.
Qed.

(** Every rule has a kept rule above it, by induction on the length of its
    domain. *)
Lemma prune_cover_bounded (R : gset str) n r :
  length (slice_2_m1 r) < n -> r ∈ R ->
  exists k, k ∈ prune_subdomain R
    /\ (k = r \/ ancestor (slice_2_m1 k) (slice_2_m1 r)).
Proof.
  revert r. induction n as [|n IH]; intros r Hlen Hr; [lia|].
  destruct (decide (r ∈ prune_subdomain R)) as [Hk|Hk]; [eauto|].
  assert (Hp : has_parent (set_map slice_2_m1 R) r = true).
  { apply not_false_iff_true. intros Hf. apply Hk, elem_of_prune. auto. }
  apply has_parent_spec in Hp as [a [Ha [r' [Hr' <-]]%elem_of_domains]].
  pose proof (ancestor_shorter _ _ Ha) as Hsh.
  destruct (IH r') as [k [Hk' Hrel]]; [lia | done |].
  exists k. split; [done|]. right.
  destruct Hrel as [->|Hrel]; [done | by eapply ancestor_trans].
Qed.

(** X1. The pruner only removes rules, and it removes no coverage: every
    rule of the input is kept, or a kept rule has an ancestor of its
    domain as domain. *)
Theorem prune_keeps_coverage (R : gset str) :
  prune_subdomain R ⊆ R
  /\ size (prune_subdomain R) <= size R
  /\ forall r, r ∈ R ->
       exists k, k ∈ prune_subdomain R
         /\ (k = r \/ ancestor (slice_2_m1 k) (slice_2_m1 r)).
Proof.
  split; [apply prune_subseteq|]. split.
  - apply subseteq_size, prune_subseteq.
  - intros r Hr.
    apply (prune_cover_bounded R (S (length (slice_2_m1 r)))); [lia | done].
Qed.

Lemma prune_keeps_coverage_witness :
  exists k,
    k ∈ prune_subdomain
          {[ lit "||a.ads.example.com^"; lit "||ads.example.com^";
             lit "||example.com^" ]}
    /\ (k = lit "||a.ads.example.com^"
        \/ ancestor (slice_2_m1 k) (slice_2_m1 (lit "||a.ads.example.com^"))).
Proof.
  apply (prune_keeps_coverage
           {[ lit "||a.ads.example.com^"; lit "||ads.example.com^";
              lit "||example.com^" ]}).
  by vm_compute.
Defined.

(** X2. Pruning two sets one by one and then their union gives what
    pruning the union of the two sets gives. *)
Theorem prune_union (A B : gset str) :
  prune_subdomain (prune_subdomain A ∪ prune_subdomain B)
  = prune_subdomain (A ∪ B).
Proof.
  apply set_eq. intros r. rewrite !elem_of_prune_ancestor, !elem_of_union.
  split.
  - intros [Hr Hno]. split.
    + destruct Hr as [Hr%prune_subseteq|Hr%prune_subseteq]; auto.
    + intros r' Hr'%elem_of_union Ha.
      assert (Hk : exists k, (k ∈ prune_subdomain A \/ k ∈ prune_subdomain B)
                 /\ (k = r' \/ ancestor (slice_2_m1 k) (slice_2_m1 r'))).
      { destruct Hr' as [Hr'|Hr'].
        - destruct (prune_cover_bounded A _ r' (Nat.lt_succ_diag_r _) Hr')
            as [k [? ?]]. eauto.
        - destruct (prune_cover_bounded B _ r' (Nat.lt_succ_diag_r _) Hr')
            as [k [? ?]]. eauto. }
      destruct Hk as [k [Hk Hrel]]. apply (Hno k).
      * by apply elem_of_union.
      * destruct Hrel as [->|Hrel]; [done | by eapply ancestor_trans].
  - intros [Hr Hno]. split.
    + destruct Hr as [Hr|Hr]; [left|right]; apply elem_of_prune_ancestor;
        (split; [done|]); intros r' Hr'; apply Hno, elem_of_union; auto.
    + intros r' Hr'%elem_of_union. apply Hno, elem_of_union.
      destruct Hr' as [Hr'%prune_subseteq|Hr'%prune_subseteq]; auto.
Qed.

(** ** The normaliser *)

Lemma lower_char_dot : lower_char "." = ".".
Proof. reflexivity. Qed.

Lemma fullmatch_domain_lower d : fullmatch domain_re d = true -> lower d = d.
Proof.
  intros Hm. unfold lower. rewrite <- (map_id d) at 2. apply map_ext_in.
  intros c Hc%list_elem_of_In.
  destruct (fullmatch_domain_chars d c Hm Hc) as [H| ->];
    [by apply lower_char_fixed | done].
Qed.

(** X3. The pattern of [normalize] accepts exactly the lower-case domains
    of the label grammar: dot-separated labels of letters, digits and
    hyphens, no label empty or with a hyphen at either end, at least two
    labels, the last one of two or more letters. *)
Theorem domain_pattern_accepts d :
  fullmatch domain_re d = true <-> valid_domain d = true /\ lower d = d.
Proof.
  split.
  - intros Hm. pose proof (fullmatch_domain_lower d Hm) as Hl.
    split; [|done]. by rewrite <- fullmatch_domain_grammar, Hl.
  - intros [Hv Hl]. by rewrite <- Hl, fullmatch_domain_grammar.
Qed.

(** X4. [normalize] accepts a line exactly when the trimmed, lower-cased
    line is [||d^] for a domain [d] of the grammar, and then returns that
    line; the test for [$] rejects nothing that the pattern would accept. *)
Theorem normalize_accepts_exactly line :
  (normalize line = [] \/ normalize line = lower (strip line))
  /\ (normalize line <> [] <->
      exists d, lower (strip line) = lit "||" ++ d ++ lit "^"
                /\ valid_domain d = true).
Proof.
  split.
  - destruct (decide (normalize line = [])) as [?|Hne]; [by left|].
    right. by apply normalize_accepts.
  - split.
    + intros Hne. destruct (normalize_accepts line Hne) as [Heq [d [Hd [Hv _]]]].
      exists d. by rewrite <- Heq.
    + intros [d [Hl Hv]]. rewrite (normalize_envelope line d Hl), Hv.
      assert (Hlow : lower d = d).
      { pose proof (lower_idem (strip line)) as Hi.
        rewrite Hl, lower_envelope in Hi. injection Hi as Hi.
        by apply app_inv_tail in Hi. }
      pose proof (valid_domain_no_dollar d Hv) as Hd. rewrite Hlow in Hd.
      by rewrite Hd.
Qed.

(** X5. An accepted rule is written with [|], [^], [.], [-], digits and
    lower-case ASCII letters only: no white space, no upper case, no [$],
    no wildcard and no path. *)
Theorem normalize_alphabet line c :
  c ∈ normalize line ->
  in_class az09h c = true \/ c = "." \/ c = "|" \/ c = "^".
Proof.
  intros Hin.
  assert (Hne : normalize line <> []) by (intros He; rewrite He in Hin; inversion Hin).
  destruct (normalize_accepts line Hne) as [_ [d [Hd [Hv Hlow]]]].
  rewrite Hd in Hin. rewrite <- fullmatch_domain_grammar, Hlow in Hv.
  apply elem_of_app in Hin as [Hin|Hin].
  - right. right. left.
    apply elem_of_cons in Hin as [->|Hin]; [done|].
    apply elem_of_cons in Hin as [->|Hin]; [done | inversion Hin].
  - apply elem_of_app in Hin as [Hin|Hin].
    + destruct (fullmatch_domain_chars d c Hv Hin); auto.
    + apply elem_of_cons in Hin as [->|Hin]; [auto | inversion Hin].
Qed.

Lemma normalize_alphabet_witness :
  in_class az09h "-" = true \/ "-" = "." \/ "-" = "|" \/ "-" = "^".
Proof.
  apply (normalize_alphabet (lit " ||Ad-1.Example.ORG^")). by_decide.
Defined.

Lemma is_space_lower c : is_space (lower_char c) = is_space c.
Proof. ascii_cases c. Qed.

Lemma lstrip_lower s : lstrip (lower s) = lower (lstrip s).
Proof.
  induction s as [|c s IH]; simpl; [done|].
  rewrite is_space_lower. by destruct (is_space c).
Qed.

Lemma lower_rev s : lower (rev s) = rev (lower s).
Proof. apply map_rev. Qed.

Lemma strip_lower s : strip (lower s) = lower (strip s).
Proof.
  unfold strip, rstrip.
  by rewrite lstrip_lower, <- lower_rev, lstrip_lower, lower_rev.
Qed.

Lemma strip_drops_right s ws :
  forallb is_space ws = true -> rstrip (lstrip (s ++ ws)) = rstrip (lstrip s).
Proof.
  intros Hws. induction s as [|c s IH]; simpl.
  - rewrite <- (app_nil_r ws), lstrip_spaces by done. done.
  - destruct (is_space c); [done|]. by rewrite app_comm_cons, rstrip_spaces.
Qed.

Lemma strip_spaces_around ws1 s ws2 :
  forallb is_space ws1 = true -> forallb is_space ws2 = true ->
  strip (ws1 ++ s ++ ws2) = strip s.
Proof.
  intros H1 H2. unfold strip. rewrite lstrip_spaces by done.
  by apply strip_drops_right.
Qed.

Lemma normalize_ext l1 l2 :
  lower (strip l1) = lower (strip l2) -> normalize l1 = normalize l2.
Proof. intros H. unfold normalize. by rewrite H. Qed.

(** X6. The answer of [normalize] depends neither on the white space
    around the line nor on the case of its letters. *)
Theorem normalize_insensitive ws1 line ws2 :
  forallb is_space ws1 = true -> forallb is_space ws2 = true ->
  normalize (ws1 ++ line ++ ws2) = normalize line
  /\ normalize (lower line) = normalize line.
Proof.
  intros H1 H2. split; apply normalize_ext.
  - by rewrite strip_spaces_around.
  - by rewrite strip_lower, lower_idem.
Qed.

Lemma normalize_insensitive_witness :
  normalize (lit "  " ++ lit "||Example.COM^" ++ lit " ")
  = normalize (lit "||Example.COM^")
  /\ normalize (lower (lit "||Example.COM^")) = normalize (lit "||Example.COM^").
Proof.
  apply (normalize_insensitive (lit "  ") (lit "||Example.COM^") (lit " "));
    reflexivity.
Defined.

(** ** The rule -> sources mapping *)

Lemma index_rules_lookup (src : str) (l : list str)
    (rs : gmap str (list str)) (r : str) :
  NoDup l ->
  foldl (index_rule src) rs l !! r
  = if decide (r ∈ l) then Some (default [] (rs !! r) ++ [src]) else rs !! r.
Proof.
  intros Hnd. revert rs. induction Hnd as [|x l Hx Hnd IH]; intros rs.
  - destruct (decide (r ∈ [])) as [Hin|_]; [by apply elem_of_nil in Hin | done].
  - cbn [foldl]. rewrite IH. unfold index_rule.
    destruct (decide (r = x)) as [->|Hne].
    + rewrite lookup_insert_eq.
      destruct (decide (x ∈ l)) as [?|_]; [done|].
      destruct (decide (x ∈ x :: l)) as [_|Hn]; [done|].
      exfalso. apply Hn. by left.
    + rewrite lookup_insert_ne by done.
      destruct (decide (r ∈ l)) as [Hin|Hin];
        destruct (decide (r ∈ x :: l)) as [Hin'|Hin']; try done.
      * exfalso. apply Hin'. by right.
      * apply elem_of_cons in Hin' as [?|?]; done.
Qed.

Lemma sources_of_cons (r src : str) (rules : gset str)
    (sp : list (str * gset str)) :
  sources_of r ((src, rules) :: sp)
  = if decide (r ∈ rules) then src :: sources_of r sp else sources_of r sp.
Proof.
  unfold sources_of. rewrite filter_cons. simpl.
  by destruct (decide (r ∈ rules)).
Qed.

Lemma build_index_lookup (sp : list (str * gset str))
    (rs : gmap str (list str)) (r : str) :
  build_index sp rs !! r
  = match sources_of r sp with
    | [] => rs !! r
    | l => Some (default [] (rs !! r) ++ l)
    end.
Proof.
  unfold build_index. revert rs.
  induction sp as [|[src rules] sp IH]; intros rs; [done|].
  cbn [foldl]. rewrite IH, sources_of_cons.
  rewrite index_rules_lookup by apply NoDup_elements.
  destruct (decide (r ∈ rules)) as [Hin|Hin].
  - rewrite decide_True by (by apply elem_of_elements).
    destruct (sources_of r sp); simpl; [done|].
    by rewrite <- app_assoc.
  - by rewrite decide_False by (by rewrite elem_of_elements).
Qed.

Lemma elem_of_sources_of (r : str) (sp : list (str * gset str)) (s : str) :
  s ∈ sources_of r sp <-> exists rules, (s, rules) ∈ sp /\ r ∈ rules.
Proof.
  unfold sources_of. rewrite list_elem_of_In, in_map_iff. split.
  - intros [[s' rules] [<- Hin%list_elem_of_In]].
    apply list_elem_of_filter in Hin as [Hr Hin]. eauto.
  - intros [rules [Hin Hr]]. exists (s, rules). split; [done|].
    apply list_elem_of_In, list_elem_of_filter. auto.
Qed.

Lemma sources_of_NoDup (sp : list (str * gset str)) (r : str) :
  NoDup (map fst sp) -> NoDup (sources_of r sp).
Proof.
  unfold sources_of. induction sp as [|[s rules] sp IH]; simpl.
  - constructor.
  - intros [Hs Hnd]%NoDup_cons. rewrite filter_cons.
    destruct (decide (r ∈ (s, rules).2)) as [_|_]; [|auto]. simpl.
    apply NoDup_cons. split; [|auto]. intros Hin. apply Hs.
    apply list_elem_of_In, in_map_iff in Hin as [x [Hx Hin]].
    apply list_elem_of_In, list_elem_of_filter in Hin as [_ Hin].
    apply list_elem_of_In, in_map_iff. exists x.
    split; [done | by apply list_elem_of_In].
Qed.

(** X7. After the first loop of the second stage, started with an empty
    [rule_sources], the entry of a rule lists the sources whose set holds
    the rule, once each and in the order of [source_pruned]; a rule that
    no source holds has no entry. *)
Theorem rule_sources_lists_owners (sp : list (str * gset str)) (r : str) :
  (build_index sp ∅ !! r
   = match sources_of r sp with [] => None | l => Some l end)
  /\ (forall s, s ∈ sources_of r sp <->
                exists rules, (s, rules) ∈ sp /\ r ∈ rules)
  /\ (NoDup (map fst sp) -> NoDup (sources_of r sp)).
Proof.
  split; [|split].
  - rewrite build_index_lookup, lookup_empty. by destruct (sources_of r sp).
  - apply elem_of_sources_of.
  - apply sources_of_NoDup.
Qed.

Lemma rule_sources_lists_owners_witness :
  NoDup (sources_of (lit "||example.com^")
           [(lit "a", {[ lit "||example.com^" ]});
            (lit "b", {[ lit "||other.org^" ]});
            (lit "c", {[ lit "||example.com^" ]})]).
Proof.
  apply (rule_sources_lists_owners
           [(lit "a", {[ lit "||example.com^" ]});
            (lit "b", {[ lit "||other.org^" ]});
            (lit "c", {[ lit "||example.com^" ]})]).
  by_decide.
Defined.

(** ** The counts of the report *)

Lemma size_filter_elements (P : str -> Prop) `{!forall r, Decision (P r)}
    (X : gset str) :
  size (filter P X) = length (filter P (elements X)).
Proof.
  unfold size at 1, set_size. simpl. apply Permutation_length.
  unfold filter at 1, set_filter. apply elements_list_to_set.
  apply NoDup_filter, NoDup_elements.
Qed.

Lemma count_duplicate_loop_exact (rs : gmap str (list str)) (l : list str)
    (P : str -> Prop) `{!forall r, Decision (P r)} acc :
  (forall r, r ∈ l ->
     exists srcs, rs !! r = Some srcs /\ (1 < length srcs <-> P r)) ->
  foldl (fun acc r =>
           n ← acc;
           srcs ← rs !! r;
           Some (if (1 <? Z.of_nat (length srcs))%Z then (n + 1)%Z else n))
    (Some acc) l
  = Some (acc + Z.of_nat (length (filter P l)))%Z.
Proof.
  revert acc. induction l as [|x l IH]; intros acc Hl; simpl.
  - f_equal. lia.
  - destruct (Hl x) as [srcs [Hs HP]]; [by left|]. rewrite Hs. simpl.
    rewrite filter_cons.
    destruct (Z.ltb_spec 1 (Z.of_nat (length srcs))) as [Hlt|Hge];
      destruct (decide (P x)) as [Hp|Hp].
    + rewrite IH by (intros r Hr; apply Hl; by right). f_equal. simpl. lia.
    + exfalso. apply Hp, HP. lia.
    + apply HP in Hp. lia.
    + apply IH. intros r Hr. apply Hl. by right.
Qed.

Lemma count_duplicate_exact (rs : gmap str (list str)) (rules : gset str)
    (P : str -> Prop) `{!forall r, Decision (P r)} :
  (forall r, r ∈ rules ->
     exists srcs, rs !! r = Some srcs /\ (1 < length srcs <-> P r)) ->
  count_duplicate rs rules = Some (Z.of_nat (size (filter P rules))).
Proof.
  intros Hr. unfold count_duplicate.
  rewrite (count_duplicate_loop_exact rs (elements rules) P).
  - by rewrite size_filter_elements.
  - intros r Hin. by apply Hr, elem_of_elements.
Qed.

Lemma true_div_max (dup len : Z) :
  (0 <= len)%Z ->
  true_div dup (Z.max len 1)
  = Some (inject_Z dup / inject_Z (Z.max len 1))%Q.
Proof.
  intros Hlen. unfold true_div.
  destruct (Z.eqb_spec (Z.max len 1) 0) as [?|_]; [lia | done].
Qed.



Lemma dict_set_has {V} (k : str) (v : V) d : (k, v) ∈ dict_set k v d.
Proof.
  induction d as [|[k' v'] d IH]; simpl; [by left|].
  case_bool_decide; [by left | by right].
Qed.

Lemma dict_set_NoDup {V} (k : str) (v : V) d :
  NoDup (map fst d) -> NoDup (map fst (dict_set k v d)).
Proof.
  induction d as [|[k' v'] d IH]; simpl.
  - intros _. apply NoDup_singleton.
  - intros [Hk Hd]%NoDup_cons. case_bool_decide as He; simpl.
    + subst k'. by apply NoDup_cons.
    + apply NoDup_cons. split; [|auto].
      rewrite dict_set_keys. intros [?|?]; done.
Qed.

Lemma dict_set_twice {V} (k : str) (v1 v2 : V) d :
  dict_set k v2 (dict_set k v1 d) = dict_set k v2 d.
Proof.
  induction d as [|[k' v'] d IH]; simpl.
  - by rewrite bool_decide_eq_true_2.
  - case_bool_decide as He; simpl.
    + by rewrite bool_decide_eq_true_2.
    + by rewrite bool_decide_eq_false_2, IH.
Qed.

Lemma NoDup_keys_functional {V} (d : list (str * V)) k v1 v2 :
  NoDup (map fst d) -> (k, v1) ∈ d -> (k, v2) ∈ d -> v1 = v2.
Proof.
  induction d as [|[k' v'] d IH]; simpl; [by intros _ ?%elem_of_nil|].
  intros [Hk Hd]%NoDup_cons H1 H2.
  assert (Hin : forall v, (k', v) ∈ d -> False).
  { intros v Hv. apply Hk, list_elem_of_In, in_map_iff.
    exists (k', v). split; [done | by apply list_elem_of_In]. }
  apply elem_of_cons in H1. apply elem_of_cons in H2.
  destruct H1 as [E1|H1], H2 as [E2|H2].
  - congruence.
  - injection E1 as -> _. by apply Hin in H2.
  - injection E2 as -> _. by apply Hin in H1.
  - by apply IH.
Qed.

(** The report of the second stage, entry by entry. *)
Lemma aggregate_entries (st : checker) :
  exists report,
    aggregate st
    = Some ({| source_pruned := source_pruned st;
               rule_sources := build_index (source_pruned st) (rule_sources st) |},
            report)
    /\ forall src rep, (src, rep) ∈ report ->
         exists rules,
           (src, rules) ∈ source_pruned st
           /\ report_source
                (build_index (source_pruned st) (rule_sources st)) rules
              = Some rep.
Proof.
  unfold aggregate, build_report.
  set (rs := build_index (source_pruned st) (rule_sources st)).
  destruct (build_report_loop rs (source_pruned st) []
              (fun e => exists rules, (e.1, rules) ∈ source_pruned st
                                      /\ report_source rs rules = Some e.2))
    as [report [Hrep [HF _]]].
  - intros src rules Hin.
    destruct (report_source_ok rs rules) as [rep [Hr _]].
    + intros r Hr. apply build_index_keys. left. eauto.
    + exists rep. split; [done|]. simpl. eauto.
  - constructor.
  - rewrite Hrep. simpl. exists report. split; [done|].
    intros src rep Hin. rewrite Forall_forall in HF. apply (HF _ Hin).
Qed.


Lemma sources_of_owner (sp : list (str * gset str)) src rules r :
  (src, rules) ∈ sp -> r ∈ rules -> src ∈ sources_of r sp.
Proof. intros. apply elem_of_sources_of. eauto. Qed.




(** X9. [rule_sources] is never reset: when the second stage runs again on
    the same object, every source is entered a second time, and the new
    report gives every source [duplicate == total] and [distinct == 0]. *)
Theorem aggregate_twice (st st1 : checker) rep1 :
  aggregate st = Some (st1, rep1) ->
  exists st2 rep2,
    aggregate st1 = Some (st2, rep2)
    /\ forall src rep, (src, rep) ∈ rep2 ->
         duplicate rep = total rep /\ distinct rep = 0%Z.
Proof.
  intros H1. destruct (aggregate_entries st) as [r1 [Ha _]].
  rewrite Ha in H1. injection H1 as <- _.
  destruct (aggregate_entries
              {| source_pruned := source_pruned st;
                 rule_sources := build_index (source_pruned st) (rule_sources st) |})
    as [rep2 [Hb Hent]].
  cbn [source_pruned rule_sources] in Hb, Hent.
  eexists _, rep2. split; [exact Hb|].
  intros src rep Hin. destruct (Hent src rep Hin) as [rules [Hsp Hrep]].
  unfold report_source in Hrep.
  rewrite (count_duplicate_exact _ _ (fun _ => True)) in Hrep.
  - cbn [mbind option_bind] in Hrep. rewrite true_div_max in Hrep by lia.
    cbn [mbind option_bind] in Hrep. injection Hrep as <-.
    cbn [duplicate total distinct].
    assert (Hf : filter (fun _ : str => True) rules = rules).
    { apply set_eq. intros r. rewrite elem_of_filter. tauto. }
    rewrite Hf. split; [done | lia].
  - intros r Hr. rewrite !build_index_lookup.
    pose proof (sources_of_owner _ src rules r Hsp Hr) as Ho.
    destruct (sources_of r (source_pruned st)) as [|a l];
      [by apply elem_of_nil in Ho|].
    eexists. split; [reflexivity|]. split; [done|]. intros _. cbn [default].
    unfold id. rewrite !length_app. cbn [length]. lia.
Qed.

Lemma aggregate_twice_witness :
  exists st2 rep2,
    aggregate {| source_pruned := [(lit "a", {[ lit "||example.org^" ]})];
                 rule_sources := {[ lit "||example.org^" := [lit "a"] ]} |}
    = Some (st2, rep2)
    /\ forall src rep, (src, rep) ∈ rep2 ->
         duplicate rep = total rep /\ distinct rep = 0%Z.
Proof.
  apply (aggregate_twice
           {| source_pruned := [(lit "a", {[ lit "||example.org^" ]})];
              rule_sources := ∅ |} _
           [(lit "a", {| total := 1; duplicate := 0; distinct := 1;
                         duplicate_rate := 0 |})]).
  by vm_compute.
Defined.

(** ** [process_source] and the state *)


Lemma prune_empty : prune_subdomain ∅ = ∅.
Proof. unfold prune_subdomain. by rewrite bool_decide_eq_true_2. Qed.

(** X10. A source without a valid rule, such as one whose download failed
    and gave the empty text, is reported with total 0, duplicate 0,
    distinct 0 and rate 0, whatever the other sources hold. *)
Theorem empty_source_report (url content : str) (st st' : checker) report rep :
  extract_rules content = ∅ ->
  NoDup (map fst (source_pruned st)) ->
  aggregate (process_source url content st) = Some (st', report) ->
  (url, rep) ∈ report ->
  total rep = 0%Z /\ duplicate rep = 0%Z /\ distinct rep = 0%Z
  /\ (duplicate_rate rep == 0)%Q.
Proof.
  intros Hex Hnd Hagg Hin.
  destruct (aggregate_entries (process_source url content st)) as [rp [Ha Hent]].
  rewrite Ha in Hagg. injection Hagg as _ <-.
  destruct (Hent url rep Hin) as [rules [Hsp Hrep]].
  unfold process_source, store_pruned in Hsp, Hrep.
  cbn [source_pruned rule_sources] in Hsp, Hrep.
  rewrite Hex, prune_empty in Hsp, Hrep.
  assert (rules = ∅) as ->.
  { eapply NoDup_keys_functional; [|exact Hsp|apply dict_set_has].
    by apply dict_set_NoDup. }
  unfold report_source, count_duplicate in Hrep.
  rewrite elements_empty, size_empty in Hrep. cbn in Hrep.
  injection Hrep as <-. cbn. done.
Qed.

Lemma empty_source_report_witness :
  total {| total := 0; duplicate := 0; distinct := 0; duplicate_rate := 0 |}
  = 0%Z
  /\ duplicate {| total := 0; duplicate := 0; distinct := 0; duplicate_rate := 0 |}
     = 0%Z
  /\ distinct {| total := 0; duplicate := 0; distinct := 0; duplicate_rate := 0 |}
     = 0%Z
  /\ (duplicate_rate
        {| total := 0; duplicate := 0; distinct := 0; duplicate_rate := 0 |}
      == 0)%Q.
Proof.
  apply (empty_source_report (lit "https://down.example/list.txt") []
           (process_source (lit "https://up.example/list.txt")
              (lit "||example.org^") init)
           {| source_pruned :=
                [(lit "https://up.example/list.txt", {[ lit "||example.org^" ]});
                 (lit "https://down.example/list.txt", ∅)];
              rule_sources :=
                {[ lit "||example.org^" := [lit "https://up.example/list.txt"] ]} |}
           [(lit "https://up.example/list.txt",
             {| total := 1; duplicate := 0; distinct := 1; duplicate_rate := 0 |});
            (lit "https://down.example/list.txt",
             {| total := 0; duplicate := 0; distinct := 0; duplicate_rate := 0 |})]).
  - by vm_compute.
  - by_decide.
  - by vm_compute.
  - right. left.
Defined.



(** X12. Processing a source again replaces its entry: of two texts
    processed for one URL the second one alone counts, so a URL that
    [sources.txt] lists twice has one entry, not two. *)
Theorem process_source_last_wins (url c1 c2 : str) (st : checker) :
  process_source url c2 (process_source url c1 st)
  = process_source url c2 st.
Proof.
  unfold process_source, store_pruned. cbn [source_pruned rule_sources].
  by rewrite dict_set_twice.
Qed.

(** ** [load_sources] *)

Lemma lstrip_head s :
  lstrip s = [] \/ exists c t, lstrip s = c :: t /\ is_space c = false.
Proof.
  induction s as [|c s IH]; simpl; [by left|].
  destruct (is_space c) eqn:Hc; [done | right; eauto].
Qed.

Lemma rstrip_last_char s :
  rstrip s = [] \/ exists t z, rstrip s = t ++ [z] /\ is_space z = false.
Proof.
  unfold rstrip. destruct (lstrip_head (rev s)) as [->|[c [t [-> Hc]]]];
    [by left | right]. exists (rev t), c. done.
Qed.

Lemma strip_idem s : strip (strip s) = strip s.
Proof.
  assert (Hr : rstrip (strip s) = strip s).
  { unfold strip. destruct (rstrip_last_char (lstrip s)) as [->|[t [z [-> Hz]]]];
      [done | by apply rstrip_last]. }
  assert (Hl : lstrip (strip s) = strip s).
  { unfold strip. destruct (rstrip_decomp (lstrip s)) as [ws [Hu _]].
    destruct (rstrip (lstrip s)) as [|x y] eqn:Hx; [done|].
    destruct (lstrip_head s) as [He|[c [t [He Hc]]]]; rewrite He in Hu.
    - discriminate.
    - injection Hu as -> _. simpl. by rewrite Hc. }
  unfold strip at 1. by rewrite Hl.
Qed.

Lemma strip_sub c s : c ∈ strip s -> c ∈ s.
Proof.
  intros Hc. destruct (strip_decomp s) as [ws1 [ws2 [Hs _]]]. rewrite Hs.
  apply elem_of_app. right. apply elem_of_app. by left.
Qed.

Lemma strip_nil_iff s : strip s = [] <-> forallb is_space s = true.
Proof.
  split.
  - intros He. destruct (strip_decomp s) as [ws1 [ws2 [Hs [H1 H2]]]].
    rewrite Hs, He, !forallb_app, H1, H2. done.
  - intros Hs. unfold strip.
    rewrite <- (app_nil_r s), lstrip_spaces by done. done.
Qed.

Lemma split_head_cases sep s :
  ((sep ∉ s) /\ default [] (head (split sep s)) = s)
  \/ (exists rest, s = default [] (head (split sep s)) ++ sep :: rest
                   /\ sep ∉ default [] (head (split sep s))).
Proof.
  induction s as [|c s IH]; simpl.
  - left. split; [apply not_elem_of_nil | done].
  - case_bool_decide as Hc.
    + subst c. right. exists s. split; [done | apply not_elem_of_nil].
    + destruct (split sep s) as [|w ws] eqn:Hsp;
        [by apply split_nonempty in Hsp|].
      simpl in *. destruct IH as [[Hn ->]|[rest [-> Hn]]].
      * left. split; [|done]. intros [?|?]%elem_of_cons; done.
      * right. exists rest. split; [done|].
        intros [?|?]%elem_of_cons; done.
Qed.

Lemma read_sources_elem text e :
  e ∈ read_sources text <->
  exists line, line ∈ file_lines text
    /\ strip line <> [] /\ startswith line (lit "#") = false
    /\ e = strip (default [] (head (split "#" line))).
Proof.
  unfold read_sources. rewrite list_elem_of_In, in_map_iff. split.
  - intros [line [<- Hin%list_elem_of_In]].
    apply list_elem_of_filter in Hin as [[? ?] ?]. eauto.
  - intros [line [Hin [Hs [Hh ->]]]]. exists line. split; [done|].
    apply list_elem_of_In, list_elem_of_filter. auto.
Qed.

Lemma load_sources_cases decode :
  load_sources decode = []
  \/ exists enc text, decode enc = Some text
                      /\ load_sources decode = read_sources text.
Proof.
  unfold load_sources.
  destruct (decode Utf8Sig) eqn:H1; [right; eauto|].
  destruct (decode Utf8) eqn:H2; [right; eauto|].
  destruct (decode Gbk) eqn:H3; [right; eauto | by left].
Qed.

(** X13. Every source that [load_sources] returns is what stands before
    the first [#] of a line of the file, trimmed: it contains no [#] and
    has no white space at either end. *)
Theorem load_sources_entries decode e :
  e ∈ load_sources decode ->
  ("#" ∉ e) /\ strip e = e
  /\ exists enc text line,
       decode enc = Some text /\ line ∈ file_lines text
       /\ e = strip (default [] (head (split "#" line))).
Proof.
  intros Hin. destruct (load_sources_cases decode) as [He|[enc [text [Hd He]]]];
    rewrite He in Hin; [by apply elem_of_nil in Hin|].
  apply read_sources_elem in Hin as [line [Hl [_ [_ ->]]]].
  split; [|split].
  - intros Hc%strip_sub.
    destruct (split_head_cases "#" line) as [[Hn Heq]|[rest [_ Hn]]]; [|done].
    by rewrite Heq in Hc.
  - apply strip_idem.
  - eauto 6.
Qed.

Lemma load_sources_entries_witness :
  ("#" ∉ lit "https://a.example/list.txt")
  /\ strip (lit "https://a.example/list.txt") = lit "https://a.example/list.txt"
  /\ exists enc text line,
       (fun enc => match enc with
                   | Gbk => Some (lit "  https://a.example/list.txt # main
")
                   | _ => None
                   end) enc = Some text
       /\ line ∈ file_lines text
       /\ lit "https://a.example/list.txt"
          = strip (default [] (head (split "#" line))).
Proof.
  apply (load_sources_entries
           (fun enc => match enc with
                       | Gbk => Some (lit "  https://a.example/list.txt # main
")
                       | _ => None
                       end)).
  by_decide.
Defined.

(** X14. The comprehension of [load_sources] yields an empty source
    exactly when a line of the file consists of white space followed by
    [#]: a comment line that does not start in the first column. *)
Theorem read_sources_empty_entry text :
  [] ∈ read_sources text <->
  exists line ws rest,
    line ∈ file_lines text /\ line = ws ++ "#" :: rest
    /\ ws <> [] /\ forallb is_space ws = true.
Proof.
  rewrite read_sources_elem. split.
  - intros [line [Hin [Hs [Hh He]]]]. symmetry in He.
    apply strip_nil_iff in He.
    destruct (split_head_cases "#" line) as [[_ Heq]|[rest [Hl _]]].
    + rewrite Heq in He. by apply strip_nil_iff in He.
    + exists line, (default [] (head (split "#" line))), rest.
      split; [done|]. split; [done|]. split; [|done].
      intros Hw. rewrite Hw in Hl. by rewrite Hl in Hh.
  - intros [line [ws [rest [Hin [-> [Hne Hws]]]]]].
    assert (Hno : "#" ∉ ws).
    { intros Hc%list_elem_of_In. rewrite forallb_forall in Hws.
      by apply Hws in Hc. }
    exists (ws ++ "#" :: rest). split; [done|]. split; [|split].
    + intros He%strip_nil_iff. rewrite forallb_app in He.
      apply andb_prop in He as [_ He]. done.
    + destruct ws as [|c ws]; [done|]. simpl.
      apply andb_false_intro1, bool_decide_eq_false. intros <-.
      apply Hno. by left.
    + rewrite split_app_sep by done. simpl. symmetry.
      by apply strip_nil_iff.
Qed.



(** ** The name of a source in the printed report *)

Lemma split_pieces_no_sep sep s p : p ∈ split sep s -> sep ∉ p.
Proof.
  revert p. induction s as [|c s IH]; intros p; simpl.
  - intros ->%list_elem_of_singleton. apply not_elem_of_nil.
  - case_bool_decide as Hc.
    + intros [->|Hp]%elem_of_cons; [apply not_elem_of_nil | auto].
    + destruct (split sep s) as [|w ws] eqn:Hsp;
        [by apply split_nonempty in Hsp|].
      intros [->|Hp]%elem_of_cons.
      * intros [?|Hw]%elem_of_cons; [done|]. revert Hw. apply IH. by left.
      * apply IH. by right.
Qed.

Lemma split_trailing_sep sep s :
  exists front, split sep (s ++ [sep]) = front ++ [[]] /\ front <> [].
Proof.
  induction s as [|c s [front [Hs Hne]]]; simpl.
  - rewrite bool_decide_eq_true_2 by done. by exists [[]].
  - rewrite Hs. case_bool_decide.
    + exists ([] :: front). done.
    + destruct front as [|w front]; [done|]. exists ((c :: w) :: front). done.
Qed.

(** X16. The name printed for a source is the text after its last [/], cut
    to 45 characters: it contains no [/], it is the source itself when
    that is short and has no [/], and it is empty for a source that ends
    in [/]. *)
Theorem display_name_spec (src : str) :
  length (display_name src) <= 45
  /\ ("/" ∉ display_name src)
  /\ (("/" ∉ src) -> length src <= 45 -> display_name src = src)
  /\ display_name (src ++ lit "/") = [].
Proof.
  unfold display_name. split; [|split; [|split]].
  - rewrite length_take. lia.
  - intros Hin. destruct (last (split "/" src)) as [p|] eqn:Hl; simpl in Hin.
    + apply last_Some_elem_of in Hl.
      apply (split_pieces_no_sep "/" src p Hl).
      revert Hin. apply (subseteq_take 45 p).
    + by apply elem_of_nil in Hin.
  - intros Hn Hlen. rewrite split_no_sep by done. simpl.
    by apply take_ge.
  - destruct (split_trailing_sep "/" src) as [front [Hs _]].
    change (lit "/") with ["/"]. by rewrite Hs, last_snoc.
Qed.

Lemma display_name_spec_witness :
  display_name (lit "hosts.txt") = lit "hosts.txt".
Proof.
  apply (display_name_spec (lit "hosts.txt")); [by_decide | simpl; lia].
Defined.

(** ** [extract_rules] over several lists *)

Lemma extract_rules_elem (text r : str) :
  r ∈ extract_rules text <->
  exists line, line ∈ splitlines text /\ normalize line <> [] /\ r = normalize line.
Proof.
  unfold extract_rules. rewrite elem_of_list_to_set, list_elem_of_In, in_map_iff.
  split.
  - intros [line [<- Hin%list_elem_of_In]].
    apply list_elem_of_filter in Hin as [? ?]. eauto.
  - intros [line [Hin [Hne ->]]]. exists line. split; [done|].
    apply list_elem_of_In, list_elem_of_filter. auto.
Qed.

Lemma splitlines_after_break (c : ascii) (b : str) :
  c <> "013" ->
  match b with
  | d :: s'' =>
      if bool_decide (c = "013") && bool_decide (d = "010")
      then splitlines_go [] false s''
      else splitlines_go [] false b
  | [] => []
  end = splitlines b.
Proof.
  intros Hc. destruct b as [|d b]; [done|].
  by rewrite bool_decide_eq_false_2.
Qed.

Lemma splitlines_go_lf cur st (b : str) :
  splitlines_go cur st ("010" :: b) = rev cur :: splitlines b.
Proof. by destruct b. Qed.

(** Reading a text, a line feed and a second text gives the lines of the
    first text, then those of the second text, with at most one empty line
    between them. *)
Lemma splitlines_go_app n : forall a cur st b,
  length a <= n -> (st = false -> cur = []) ->
  exists extra,
    splitlines_go cur st (a ++ "010" :: b)
    = splitlines_go cur st a ++ extra ++ splitlines b
    /\ (extra = [] \/ extra = [[]]).
Proof.
  induction n as [|n IH]; intros a cur st b Hlen Hinv.
  - destruct a; [|simpl in Hlen; lia].
    change ([] ++ "010" :: b) with ("010" :: b). rewrite splitlines_go_lf.
    destruct st; [exists []; split; [done | by left] |]. rewrite Hinv by done. exists [[]]; split; [done | by right].
  - destruct a as [|c a]; [apply (IH [] cur st b); [simpl; lia | exact Hinv]|].
    simpl in Hlen. cbn [app splitlines_go]. destruct (is_linebreak c) eqn:Hbr.
    + destruct a as [|d a]; cbn [app]; cbn [length] in Hlen.
      * destruct (decide (c = "013")) as [->|Hc].
        -- exists []; split; [done | by left].
        -- rewrite bool_decide_eq_false_2 by done. cbn [andb].
           rewrite splitlines_go_lf. exists [[]]; split; [done | by right].
      * destruct (bool_decide (c = "013") && bool_decide (d = "010")).
        -- destruct (IH a [] false b) as [extra [He Hx]]; [lia | done |].
           exists extra. by rewrite He.
        -- destruct (IH (d :: a) [] false b) as [extra [He Hx]];
             [simpl; lia | done |].
           exists extra. cbn [app] in He. by rewrite He.
    + destruct (IH a (c :: cur) true b) as [extra [He Hx]]; [lia | done |].
      exists extra. by rewrite He.
Qed.

(** X17. The rules of two texts joined by a line feed are the rules of the
    first text together with the rules of the second one. *)
Theorem extract_rules_app (a b : str) :
  extract_rules (a ++ "010" :: b) = extract_rules a ∪ extract_rules b.
Proof.
  destruct (splitlines_go_app (length a) a [] false b) as [extra [He Hx]];
    [done..|].
  apply set_eq. intros r.
  rewrite elem_of_union, !extract_rules_elem. unfold splitlines at 1.
  rewrite He. fold (splitlines a). split.
  - intros [line [Hin [Hne ->]]].
    apply elem_of_app in Hin as [Hin|Hin]; [left; eauto|].
    apply elem_of_app in Hin as [Hin|Hin]; [|right; eauto].
    destruct Hx as [->| ->]; [by apply elem_of_nil in Hin|].
    by apply list_elem_of_singleton in Hin as ->.
  - intros [[line [Hin [Hne ->]]]|[line [Hin [Hne ->]]]]; exists line;
      (split; [|done]); rewrite !elem_of_app; auto.
Qed.

(** ** The candidates of the pruner *)

(** X18. The loop of [prune_subdomain] finds a parent for a rule exactly
    when the domain of the rule is [p + "." + a] for some prefix [p] and
    some domain [a] of the set: the strings ['.'.join(parts[i:])] that it
    tries are the proper suffixes of the domain that start after a dot. *)
Theorem has_parent_iff_dot_suffix (domains : gset str) (rule : str) :
  has_parent domains rule = true <->
  exists p a, slice_2_m1 rule = p ++ lit "." ++ a /\ a ∈ domains.
Proof.
  rewrite has_parent_spec. split.
  - intros [a [[p Hp] Ha]]. exists p, a. split; [exact Hp | exact Ha].
  - intros [p [a [Hp Ha]]]. exists a. split; [exists p; exact Hp | exact Ha].
Qed.
